(** * Verification of the 4-state protein binding/unfolding notebook
    (examples/protein_binding_unfolding_4state_model.ipynb).

    Part 1 embeds the rate-law callbacks [_gibbs] and [_eyring] and
    [Se0_from_Tm].  Python evaluates [+ - * /] through the operands' own
    operators (duck typing) and [exp]/[log] through the [backend] module
    argument; we mirror this with a class [PyNum] for the operators and a
    record [Backend] for the module.  Three value types are used: Python
    floats (IEEE 754 binary64, with the exceptions Python raises, and
    CPython's [math.exp]/[math.log] over a C library), sympy expressions
    (substitution evaluates them over the complex numbers), and, for
    comparison, exact real numbers.

    Part 2 embeds the reaction network of the notebook and the invariant
    reduction it calls in chempy/pyodesys. *)

From Stdlib Require Import Reals List String Ascii ZArith QArith Qreals Qring Psatz.
Import ListNotations.
Open Scope string_scope.

(* ------------------------------------------------------------------ *)
(** ** Part 1: rate laws *)

Module RateModel.
Local Open Scope R_scope.

(** Arithmetic operators of a Python value type. *)
Class PyNum (V : Type) := {
  py_add : V -> V -> V;
  py_sub : V -> V -> V;
  py_mul : V -> V -> V;
  py_div : V -> V -> V;
  py_neg : V -> V
}.

(** The [backend] module argument: [backend.exp] and [backend.log]. *)
Record Backend (V : Type) := {
  b_exp : V -> V;
  b_log : V -> V
}.
Arguments b_exp {V} _ _.
Arguments b_log {V} _ _.

Declare Scope py_scope.
Delimit Scope py_scope with py.
Infix "+" := py_add : py_scope.
Infix "-" := py_sub : py_scope.
Infix "*" := py_mul : py_scope.
Infix "/" := py_div : py_scope.
Notation "- x" := (py_neg x) : py_scope.

Local Open Scope py_scope.

(** [def _gibbs(args, T, R, backend, **kwargs)]; [S_] is the source's [S]
    ([S] is taken by the successor constructor). *)
Definition _gibbs {V : Type} `{num : PyNum V} (backend : Backend V)
    (args : V * V * V * V) (T R : V) : V :=
  let '(H, S_, Cp, Tref) := args in
  let H2 := H + Cp*(T - Tref) in
  let S2 := S_ + Cp*b_log backend (T/Tref) in
  b_exp backend (-(H2 - T*S2)/(R*T)).

(** [def _eyring(args, T, R, k_B, h, backend, **kwargs)] *)
Definition _eyring {V : Type} `{num : PyNum V} (backend : Backend V)
    (args : V * V) (T R k_B h : V) : V :=
  let '(H, S_) := args in
  k_B/h*T*b_exp backend (-(H - T*S_)/(R*T)).

(** The expression returned by [def Se0_from_Tm(Tm, token)], once [dH0],
    [T0] and [dCp] have been read from [params]; [math_log] is
    [math.log]. *)
Definition Se0_formula {V : Type} `{num : PyNum V} (math_log : V -> V)
    (dH0 T0 dCp Tm : V) : V :=
  dH0/Tm + (Tm-T0)*dCp/Tm - dCp*math_log (Tm/T0).

Local Close Scope py_scope.

(** *** Exact arithmetic: the same definitions read over the reals. *)

#[export] Instance real_num : PyNum R := {
  py_add := Rplus; py_sub := Rminus; py_mul := Rmult; py_div := Rdiv; py_neg := Ropp
}.

Definition real_backend : Backend R := {| b_exp := exp; b_log := ln |}.

(** [Se0_from_Tm] with exact real arithmetic and the real logarithm. *)
Definition Se0_from_Tm_exact (params : string -> R) (Tm : R) (token : string) : R :=
  Se0_formula ln (params ("He_" ++ token)) (params ("Tref_" ++ token))
    (params ("Cp_" ++ token)) Tm.

(** *** Symbolic evaluation: sympy expressions with the [sympy] module. *)

Inductive Expr : Type :=
| Sym (name : string)
| Num (x : R)
| Add (a b : Expr)
| Sub (a b : Expr)
| Mul (a b : Expr)
| Div (a b : Expr)
| Neg (a : Expr)
| Exp (a : Expr)
| Log (a : Expr).



(** Numbers that a substituted sympy expression evaluates to: sympy's
    numbers are complex, and [exp], [log] are the complex exponential and
    the principal branch of the complex logarithm. *)
Record C := mkC { re : R; im : R }.

Definition C_of_R (x : R) : C := mkC x 0.
Definition cadd (z w : C) : C := mkC (re z + re w) (im z + im w).
Definition csub (z w : C) : C := mkC (re z - re w) (im z - im w).
Definition cmul (z w : C) : C :=
  mkC (re z * re w - im z * im w) (re z * im w + im z * re w).
Definition cneg (z : C) : C := mkC (- re z) (- im z).

Definition cis_zero (z : C) : bool :=
  if Req_EM_T (re z) 0 then (if Req_EM_T (im z) 0 then true else false) else false.

Definition cnorm2 (z : C) : R := re z * re z + im z * im z.

Definition cdiv (z w : C) : C :=
  mkC ((re z * re w + im z * im w) / cnorm2 w)
      ((im z * re w - re z * im w) / cnorm2 w).

(** The principal argument, in [(-PI, PI]]. *)
Definition carg (z : C) : R :=
  if Rlt_dec 0 (re z) then atan (im z / re z)
  else if Rlt_dec (re z) 0 then
    (if Rle_dec 0 (im z) then atan (im z / re z) + PI else atan (im z / re z) - PI)
  else if Rlt_dec 0 (im z) then PI / 2 else - (PI / 2).

Definition cexp (z : C) : C := mkC (exp (re z) * cos (im z)) (exp (re z) * sin (im z)).
Definition clog (z : C) : C := mkC (ln (sqrt (cnorm2 z))) (carg z).

(** [expr.subs(env)]: [None] stands for sympy's [zoo] and [nan], which a
    division by zero or [log(0)] produces and every operation
    propagates. *)
Fixpoint subs (env : string -> R) (e : Expr) : option C :=
  match e with
  | Sym s => Some (C_of_R (env s))
  | Num x => Some (C_of_R x)
  | Add a b => match subs env a, subs env b with
               | Some z, Some w => Some (cadd z w) | _, _ => None end
  | Sub a b => match subs env a, subs env b with
               | Some z, Some w => Some (csub z w) | _, _ => None end
  | Mul a b => match subs env a, subs env b with
               | Some z, Some w => Some (cmul z w) | _, _ => None end
  | Div a b => match subs env a, subs env b with
               | Some z, Some w => if cis_zero w then None else Some (cdiv z w)
               | _, _ => None end
  | Neg a => match subs env a with Some z => Some (cneg z) | None => None end
  | Exp a => match subs env a with Some z => Some (cexp z) | None => None end
  | Log a => match subs env a with
             | Some z => if cis_zero z then None else Some (clog z)
             | None => None end
  end.

End RateModel.

(** *** IEEE 754 binary64, the values of Python's [float]. *)

Module F64.
Local Open Scope Z_scope.

(** A finite non-zero float is [(-1)^s * m * 2^e], kept canonical: either
    [2^52 <= m < 2^53] and [-1074 <= e <= 971] (normal), or [m < 2^52] and
    [e = -1074] (subnormal). *)
Inductive float : Type :=
| Fzero (s : bool)
| Finf (s : bool)
| Fnan
| Ffin (s : bool) (m : positive) (e : Z).

Definition emin : Z := -1074.
Definition emax : Z := 971.

Definition normalize (s : bool) (m e : Z) : float :=
  if Z.eqb m 0 then Fzero s else
  let '(m, e) := if Z.eqb m (2 ^ 53) then (2 ^ 52, e + 1) else (m, e) in
  if Z.ltb emax e then Finf s else Ffin s (Z.to_pos m) e.

(** [2^k <= n/d] *)
Definition pow2_le (k : Z) (n d : positive) : bool :=
  if Z.leb 0 k then Z.leb (Zpos d * 2 ^ k) (Zpos n)
  else Z.leb (Zpos d) (Zpos n * 2 ^ (- k)).

(** Rounding [n/d > 0] to nearest, ties to even, with sign [s]. *)
Definition round_pos (s : bool) (n d : positive) : float :=
  let k0 := Z.log2 (Zpos n) - Z.log2 (Zpos d) in
  let k := if pow2_le k0 n d then k0 else k0 - 1 in
  let e := Z.max (k - 52) emin in
  let '(N, D) := if Z.leb 0 e then (Zpos n, Zpos d * 2 ^ e)
                 else (Zpos n * 2 ^ (- e), Zpos d) in
  let m := N / D in
  let m' := match Z.compare (2 * (N mod D)) D with
            | Lt => m
            | Gt => m + 1
            | Eq => if Z.even m then m else m + 1
            end in
  normalize s m' e.

Definition round_Q (q : Q) : float :=
  match Qnum q with
  | Z0 => Fzero false
  | Zpos n => round_pos false n (Qden q)
  | Zneg n => round_pos true n (Qden q)
  end.

Definition pow2Q (e : Z) : Q :=
  if Z.leb 0 e then inject_Z (2 ^ e) else 1 # Z.to_pos (2 ^ (- e)).

(** The rational value of a finite float. *)
Definition fval (x : float) : Q :=
  match x with
  | Ffin s m e => ((if s then Zneg m else Zpos m) # 1) * pow2Q e
  | _ => 0%Q
  end.

Definition is_nan (x : float) : bool := match x with Fnan => true | _ => false end.
Definition is_inf (x : float) : bool := match x with Finf _ => true | _ => false end.
Definition is_zero (x : float) : bool := match x with Fzero _ => true | _ => false end.
Definition is_finite (x : float) : bool :=
  match x with Fzero _ | Ffin _ _ _ => true | _ => false end.

(** The results [math.log] refuses besides zeros: negative ones. *)
Definition neg_result (x : float) : Prop :=
  match x with Fzero true | Finf true | Ffin true _ _ => True | _ => False end.

(** Python float literals are correctly rounded. *)
Definition lit (q : Q) : float := round_Q q.

Definition fneg (x : float) : float :=
  match x with
  | Fzero s => Fzero (negb s)
  | Finf s => Finf (negb s)
  | Fnan => Fnan
  | Ffin s m e => Ffin (negb s) m e
  end.

Definition fadd (x y : float) : float :=
  match x, y with
  | Fnan, _ | _, Fnan => Fnan
  | Finf sx, Finf sy => if Bool.eqb sx sy then Finf sx else Fnan
  | Finf sx, _ => Finf sx
  | _, Finf sy => Finf sy
  | Fzero sx, Fzero sy => Fzero (sx && sy)
  | Fzero _, _ => y
  | _, Fzero _ => x
  | _, _ => round_Q (fval x + fval y)
  end.

Definition fsub (x y : float) : float := fadd x (fneg y).

Definition fmul (x y : float) : float :=
  match x, y with
  | Fnan, _ | _, Fnan => Fnan
  | Finf _, Fzero _ | Fzero _, Finf _ => Fnan
  | Finf sx, Finf sy | Finf sx, Ffin sy _ _ | Ffin sx _ _, Finf sy => Finf (xorb sx sy)
  | Fzero sx, Fzero sy | Fzero sx, Ffin sy _ _ | Ffin sx _ _, Fzero sy => Fzero (xorb sx sy)
  | Ffin _ _ _, Ffin _ _ _ => round_Q (fval x * fval y)
  end.

Definition fdiv (x y : float) : float :=
  match x, y with
  | Fnan, _ | _, Fnan => Fnan
  | Finf _, Finf _ | Fzero _, Fzero _ => Fnan
  | Finf sx, Fzero sy | Finf sx, Ffin sy _ _ | Ffin sx _ _, Fzero sy => Finf (xorb sx sy)
  | Fzero sx, Finf sy | Fzero sx, Ffin sy _ _ | Ffin sx _ _, Finf sy => Fzero (xorb sx sy)
  | Ffin _ _ _, Ffin _ _ _ => round_Q (fval x / fval y)
  end.

(** Rounding a real number to nearest, ties to even, as [round_pos]
    does for rationals; [up r - 1] is the floor of [r]. *)
Definition round_R (r : R) : float :=
  if Req_EM_T r 0 then Fzero false else
  let s := if Rlt_dec r 0 then true else false in
  let a := Rabs r in
  let k := (up (ln a / ln 2) - 1)%Z in
  let e := Z.max (k - 52) emin in
  let y := (a * powerRZ 2 (- e))%R in
  let fl := (up y - 1)%Z in
  let m := if Rlt_dec (y - IZR fl) (1/2) then fl
           else if Rlt_dec (1/2) (y - IZR fl) then fl + 1
           else if Z.even fl then fl else fl + 1 in
  normalize s m e.

End F64.

(** *** Numeric evaluation: Python floats with the [math] module. *)

Module PyFloat.
Import RateModel F64.

Inductive exc : Type :=
| ZeroDivisionError   (* float division by zero *)
| ValueError          (* math domain error *)
| OverflowError       (* math range error *)
| KeyError.           (* missing dict key *)

(** A Python float expression either yields a float or raises. *)
Inductive fres : Type :=
| FOk (x : float)
| FErr (e : exc).

(** Python evaluates both operands left to right before applying a binary
    operator; the first exception wins. *)
Definition lift2 (f : float -> float -> fres) (x y : fres) : fres :=
  match x with
  | FErr e => FErr e
  | FOk a => match y with
             | FErr e => FErr e
             | FOk b => f a b
             end
  end.

Definition lift1 (f : float -> fres) (x : fres) : fres :=
  match x with
  | FErr e => FErr e
  | FOk a => f a
  end.

(** [float.__truediv__] raises on a zero divisor, whatever the dividend. *)
Definition float_div (a b : float) : fres :=
  if is_zero b then FErr ZeroDivisionError else FOk (fdiv a b).

#[export] Instance float_num : PyNum fres := {
  py_add := lift2 (fun a b => FOk (fadd a b));
  py_sub := lift2 (fun a b => FOk (fsub a b));
  py_mul := lift2 (fun a b => FOk (fmul a b));
  py_div := lift2 float_div;
  py_neg := lift1 (fun a => FOk (fneg a))
}.

(** The C library's [exp] and [log] on doubles. *)
Record Libm := mkLibm { c_exp : float -> float; c_log : float -> float }.

(** CPython's [math_1(arg, func, can_overflow)]: a NaN result from a
    non-NaN argument is a domain error, an infinite result from a finite
    argument an overflow (or, when [can_overflow] is false, a domain
    error). *)
Definition math_1 (can_overflow : bool) (func : float -> float) (x : float) : fres :=
  let r := func x in
  if is_nan r && negb (is_nan x) then FErr ValueError
  else if is_inf r && is_finite x then
    (if can_overflow then FErr OverflowError else FErr ValueError)
  else FOk r.

(** CPython's [m_log]: the library's [log] on positive finite arguments,
    [-inf] at zero and NaN below it. *)
Definition m_log (L : Libm) (x : float) : float :=
  match x with
  | Ffin false _ _ => c_log L x
  | Fzero _ => Finf true
  | Ffin true _ _ | Finf true => Fnan
  | Finf false | Fnan => x
  end.

Definition math_with (L : Libm) : Backend fres := {|
  b_exp := lift1 (math_1 true (c_exp L));
  b_log := lift1 (math_1 false (m_log L))
|}.

Definition one : float := Ffin false (2 ^ 52) (-52).

(** A correctly rounded C library, with the special values of C's
    Annex F. *)
Definition libm_exp (x : float) : float :=
  match x with
  | Fnan => Fnan
  | Fzero _ => one
  | Finf false => Finf false
  | Finf true => Fzero false
  | Ffin _ _ _ => round_R (exp (Q2R (fval x)))
  end.

Definition libm_log (x : float) : float :=
  match x with
  | Fnan => Fnan
  | Fzero _ => Finf true
  | Finf false => Finf false
  | Finf true | Ffin true _ _ => Fnan
  | Ffin false m e =>
      if Pos.eqb m (2 ^ 52) && Z.eqb e (-52) then Fzero false
      else round_R (ln (Q2R (fval x)))
  end.

Definition libm : Libm := mkLibm libm_exp libm_log.

(** The [math] module. *)
Definition math : Backend fres := math_with libm.

(** [params[key]] for a dict of floats. *)
Fixpoint getitem (k : string) (d : list (string * float)) : fres :=
  match d with
  | [] => FErr KeyError
  | (k', v) :: t => if String.eqb k k' then FOk v else getitem k t
  end.

(** [def Se0_from_Tm(Tm, token)], reading [params]: the three reads
    happen first, then the expression. *)
Definition Se0_from_Tm (L : Libm) (params : list (string * float)) (Tm : float)
    (token : string) : fres :=
  match getitem ("He_" ++ token) params, getitem ("Tref_" ++ token) params,
        getitem ("Cp_" ++ token) params with
  | FOk dH0, FOk T0, FOk dCp =>
      Se0_formula (b_log (math_with L)) (FOk dH0) (FOk T0) (FOk dCp) (FOk Tm)
  | FErr e, _, _ | FOk _, FErr e, _ | FOk _, FOk _, FErr e => FErr e
  end.

End PyFloat.

(** Inputs at which the rate laws are evaluated below. *)
Module RateInputs.
Import RateModel F64 PyFloat.


Definition params_u_exact (k : string) : R :=
  if String.eqb k "He_u" then 60000%R else
  if String.eqb k "Tref_u" then 298.15%R else 20500%R.

Definition params_u_underflow : list (string * float) :=
  [("He_u", lit 60000); ("Tref_u", lit (Zpos (Pos.pow 10 300) # 1)); ("Cp_u", lit 20500)].

Definition params_u_melt : list (string * float) :=
  [("He_u", lit 60000); ("Tref_u", lit 310); ("Cp_u", lit 1)].

(** [0x1.96d238301c402p-49], the argument of [exp] at the melting
    temperature for [params_u_melt] with [R = 8.314472]. *)
Definition x_melt : float := Ffin false 7156873706980354 (-101).
(** [1.0000000000000029 = 1 + 13 * 2^-52]. *)
Definition K_melt : float := Ffin false (2 ^ 52 + 13) (-52).

End RateInputs.

(* ------------------------------------------------------------------ *)
(** ** Part 2: reaction network and invariant reduction *)

Module Network.
Local Open Scope Q_scope.
Local Open Scope list_scope.

(** Polynomial expressions over concentrations ([PVar s] is [[s]]),
    initial concentrations ([PInit s] is the symbol [s0]) and rate
    parameters ([PPar k]); the symbolic right-hand sides of mass-action
    kinetics are of this form. *)
Inductive pexpr : Type :=
| PVar (s : string)
| PInit (s : string)
| PPar (k : string)
| PCst (q : Q)
| PAdd (a b : pexpr)
| PMul (a b : pexpr).

Fixpoint eval (x y0 p : string -> Q) (e : pexpr) : Q :=
  match e with
  | PVar s => x s
  | PInit s => y0 s
  | PPar k => p k
  | PCst q => q
  | PAdd a b => eval x y0 p a + eval x y0 p b
  | PMul a b => eval x y0 p a * eval x y0 p b
  end.

(** Partial derivative with respect to the concentration [[v]]. *)
Fixpoint deriv (v : string) (e : pexpr) : pexpr :=
  match e with
  | PVar s => if String.eqb s v then PCst 1 else PCst 0
  | PInit _ | PPar _ | PCst _ => PCst 0
  | PAdd a b => PAdd (deriv v a) (deriv v b)
  | PMul a b => PAdd (PMul (deriv v a) b) (PMul a (deriv v b))
  end.

(** Association-list lookup (Python [dict.get]). *)
Fixpoint assoc {A : Type} (k : string) (l : list (string * A)) : option A :=
  match l with
  | [] => None
  | (k', a) :: t => if String.eqb k k' then Some a else assoc k t
  end.

(** Substitution of expressions for concentrations. *)
Fixpoint subst (sigma : list (string * pexpr)) (e : pexpr) : pexpr :=
  match e with
  | PVar s => match assoc s sigma with Some e' => e' | None => PVar s end
  | PAdd a b => PAdd (subst sigma a) (subst sigma b)
  | PMul a b => PMul (subst sigma a) (subst sigma b)
  | _ => e
  end.

Fixpoint ppow (e : pexpr) (n : nat) : pexpr :=
  match n with
  | O => PCst 1
  | S n' => PMul e (ppow e n')
  end.

(** *** Data model (chempy's [Substance], [Reaction], [ReactionSystem]). *)

Record Substance := mkSubstance {
  s_name : string;
  s_composition : list (string * nat)   (* composition dict *)
}.

(** Stoichiometry dicts map a substance name to its coefficient. *)
Definition stoich := list (string * nat).

Record Reaction := mkReaction {
  reac : stoich;
  prod : stoich;
  inact_reac : stoich;
  inact_prod : stoich;
  rate_coeff : pexpr;   (* rate coefficient, in the rate parameters *)
  r_name : string
}.

Record ReactionSystem := mkReactionSystem {
  rxns : list Reaction;
  substances : list Substance   (* OrderedDict: insertion order *)
}.

Definition substance_names (rs : ReactionSystem) : list string :=
  map s_name (substances rs).

(** [d.get(k, 0)] *)
Definition get0 (k : string) (d : list (string * nat)) : nat :=
  match assoc k d with Some n => n | None => 0%nat end.

(** Amount of component [k] in the substance named [s]. *)
Definition comp_of (subs : list Substance) (s k : string) : Z :=
  match find (fun sb => String.eqb (s_name sb) s) subs with
  | Some sb => Z.of_nat (get0 k (s_composition sb))
  | None => 0%Z
  end.

Fixpoint nodup_str (l : list string) : list string :=
  match l with
  | [] => []
  | a :: t => a :: filter (fun b => negb (String.eqb a b)) (nodup_str t)
  end.

(** Modelled from the spec: [Substance.composition_keys] (chempy), the
    component names occurring in the compositions of the substances. *)
Definition composition_keys (subs : list Substance) : list string :=
  nodup_str (flat_map (fun sb => map fst (s_composition sb)) subs).

(** Modelled from the spec: [ReactionSystem.composition_balance_vectors]
    (chempy), the composition-balance query "(network) -> (matrix,
    component-name list)": the matrix A has one row per component and one
    column per substance, in network order, built directly from the
    compositions ([[[s.composition.get(k, 0) for s in subs] for k in ck]]). *)
Definition composition_balance_vectors (rs : ReactionSystem)
    : list (list Z) * list string :=
  let subs := substances rs in
  let ck := composition_keys subs in
  (map (fun k => map (fun sb => Z.of_nat (get0 k (s_composition sb))) subs) ck,
   ck).

(** Coefficient of a substance in a stoichiometry dict (entries with the
    same key are added; a Python dict has none). *)
Fixpoint coef (ms : stoich) (s : string) : Z :=
  match ms with
  | [] => 0%Z
  | (s', n) :: t => ((if String.eqb s s' then Z.of_nat n else 0) + coef t s)%Z
  end.

Definition all_reactants (r : Reaction) : stoich := reac r ++ inact_reac r.
Definition all_products (r : Reaction) : stoich := prod r ++ inact_prod r.

(** Modelled from the spec: [Reaction.net_stoich] (chempy), the
    stoichiometric change vector of a reaction over the substances. *)
Definition net_stoich (subs : list Substance) (r : Reaction) : list Z :=
  map (fun sb => (coef (all_products r) (s_name sb)
                  - coef (all_reactants r) (s_name sb))%Z) subs.

(** Composition of one side of a reaction, for component [k]. *)
Definition side_composition (subs : list Substance) (ms : stoich) (k : string) : Z :=
  fold_right (fun '(s, n) acc => (Z.of_nat n * comp_of subs s k + acc)%Z) 0%Z ms.

Definition balanced (subs : list Substance) (r : Reaction) : bool :=
  forallb (fun k => Z.eqb (side_composition subs (all_reactants r) k)
                          (side_composition subs (all_products r) k))
          (composition_keys subs).

Definition known (subs : list Substance) (r : Reaction) : bool :=
  forallb (fun '(s, _) => existsb (fun sb => String.eqb (s_name sb) s) subs)
          (all_reactants r ++ all_products r).

Fixpoint unique_b (l : list string) : bool :=
  match l with
  | [] => true
  | a :: t => (negb (existsb (String.eqb a) t) && unique_b t)%bool
  end.

(** Modelled from the spec: the [ReactionSystem] constructor (chempy).
    Substance names are unique (dict keys); a reaction that references an
    unknown substance is a MalformedNetwork; composition balance of every
    reaction is enforced at construction (spec, section 8.1). *)
Definition mk_ReactionSystem (rs : list Reaction) (subs : list Substance)
    : option ReactionSystem :=
  if (unique_b (map s_name subs) && forallb (known subs) rs && forallb (balanced subs) rs)%bool
  then Some (mkReactionSystem rs subs)
  else None.

(** Dot product of two vectors. *)
Fixpoint dot (v w : list Z) : Z :=
  match v, w with
  | a :: v', b :: w' => (a * b + dot v' w')%Z
  | _, _ => 0%Z
  end.

(** *** The ODE system (chempy's [get_odesys]) *)

(** Mass-action rate: rate coefficient times the active reactant
    concentrations raised to their coefficients. *)
Definition rate_expr (r : Reaction) : pexpr :=
  fold_right (fun '(s, n) acc => PMul acc (ppow (PVar s) n)) (rate_coeff r) (reac r).

(** Modelled from the spec: the right-hand side assembled by [get_odesys]
    (section 2: "assembled from reaction rates and stoichiometry"):
    [d[s]/dt = sum over reactions of net_stoich(r, s) * rate(r)]. *)
Definition rhs (rs : ReactionSystem) : list (string * pexpr) :=
  map (fun sb =>
         (s_name sb,
          fold_right (fun r acc =>
                        PAdd (PMul (PCst (inject_Z (coef (all_products r) (s_name sb)
                                                    - coef (all_reactants r) (s_name sb))))
                                   (rate_expr r)) acc)
                     (PCst 0) (rxns rs)))
      (substances rs).

(** *** Gauss-Jordan elimination over the rationals *)

Fixpoint zip_with (f : Q -> Q -> Q) (a b : list Q) : list Q :=
  match a, b with
  | x :: a', y :: b' => f x y :: zip_with f a' b'
  | _, _ => []
  end.

(** First row with a non-zero entry in column [j], and the other rows. *)
Fixpoint find_pivot (j : nat) (rows : list (list Q))
    : option (list Q * list (list Q)) :=
  match rows with
  | [] => None
  | r :: t =>
      if Qeq_bool (nth j r 0) 0 then
        match find_pivot j t with
        | Some (piv, rest) => Some (piv, r :: rest)
        | None => None
        end
      else Some (r, t)
  end.

Definition scale_row (c : Q) (r : list Q) : list Q := map (Qmult c) r.

(** [r - r[j] * piv] *)
Definition elim_row (j : nat) (piv r : list Q) : list Q :=
  let c := nth j r 0 in zip_with (fun a b => b - c * a) piv r.

(** Reduces the columns [cols] in turn; [done] holds the normalised pivot
    rows found so far.  Fails when a column has no pivot. *)
Fixpoint gauss_jordan (cols : list nat) (done todo : list (list Q))
    : option (list (list Q)) :=
  match cols with
  | [] => Some done
  | j :: cs =>
      match find_pivot j todo with
      | None => None
      | Some (piv, rest) =>
          let piv' := scale_row (/ nth j piv 0) piv in
          gauss_jordan cs (map (elim_row j piv') done ++ [piv'])
                       (map (elim_row j piv') rest)
      end
  end.

(** Rank of a matrix: the number of pivots of its row echelon form. *)
Fixpoint rank_cols (cols : list nat) (rows : list (list Q)) : nat :=
  match cols with
  | [] => O
  | j :: cs =>
      match find_pivot j rows with
      | None => rank_cols cs rows
      | Some (piv, rest) =>
          let piv' := scale_row (/ nth j piv 0) piv in
          S (rank_cols cs (map (elim_row j piv') rest))
      end
  end.

Definition rank (A : list (list Z)) : nat :=
  rank_cols (seq 0 (List.length (hd [] A))) (map (map inject_Z) A).

(** Entry [k] of the linear combination [sum c * r] of the pairs [(c, r)]. *)
Definition row_comb (cr : list (Q * list Q)) (k : nat) : Q :=
  fold_right (fun '(c, r) acc => (c * nth k r 0 + acc)%Q) 0%Q cr.

(** *** Elimination of dependent species *)

Definition mem (s : string) (l : list string) : bool := existsb (String.eqb s) l.

Fixpoint lin_comb (cs : list Q) (atoms : list pexpr) : pexpr :=
  match cs, atoms with
  | c :: cs', a :: atoms' => PAdd (PMul (PCst c) a) (lin_comb cs' atoms')
  | _, _ => PCst 0
  end.

(** Modelled from the spec: the [linear_dependencies] callback of
    [get_odesys] (section 4.2, step 3).  Each invariant row [v] gives
    [sum_{s in elim} v_s [s] = sum_s v_s s0 - sum_{f free} v_f [f]]; the
    system is solved for the eliminated species, each of which becomes an
    affine expression in the initial concentrations and the free
    concentrations.  A non-invertible choice fails (SingularElimination). *)
Definition linear_dependencies (rs : ReactionSystem) (elim : list string)
    : option (list (string * pexpr)) :=
  let names := substance_names rs in
  let free := filter (fun s => negb (mem s elim)) names in
  let A := fst (composition_balance_vectors rs) in
  let coeff v s := match assoc s (combine names v) with
                   | Some z => inject_Z z | None => 0 end in
  let rows := map (fun v => map (coeff v) elim ++ map (coeff v) names
                                ++ map (fun f => - coeff v f) free) A in
  let atoms := map PInit names ++ map PVar free in
  match gauss_jordan (seq 0 (List.length elim)) [] rows with
  | None => None
  | Some solved =>
      Some (combine elim (map (fun r => lin_comb (skipn (List.length elim) r) atoms)
                              solved))
  end.

(** Modelled from the spec: pyodesys' [PartiallySolvedSystem] (section
    4.2, step 5): the species with an analytic expression are removed, the
    others stay free, and the analytic expressions are substituted into
    the right-hand sides of the free species. *)
Record PartiallySolved := mkPartiallySolved {
  free_names : list string;
  analytic_exprs : list (string * pexpr);
  exprs : list pexpr
}.

Definition partially_solved (rs : ReactionSystem)
    (analytic : list (string * pexpr)) : PartiallySolved :=
  let free := filter (fun s => match assoc s analytic with
                               | Some _ => false | None => true end)
                     (substance_names rs) in
  mkPartiallySolved free analytic
    (map (fun f => match assoc f (rhs rs) with
                   | Some e => subst analytic e
                   | None => PCst 0
                   end) free).

Definition reduce (rs : ReactionSystem) (elim : list string)
    : option PartiallySolved :=
  match linear_dependencies rs elim with
  | Some a => Some (partially_solved rs a)
  | None => None
  end.

(** Jacobian of the right-hand side with respect to the free species. *)
Definition jacobian (sys : PartiallySolved) : list (list pexpr) :=
  map (fun e => map (fun f => deriv f e) (free_names sys)) (exprs sys).

Fixpoint remove_at {A : Type} (j : nat) (l : list A) : list A :=
  match j, l with
  | _, [] => []
  | O, _ :: t => t
  | S j', a :: t => a :: remove_at j' t
  end.

(** Determinant by expansion along the first row. *)
Fixpoint det (n : nat) (M : list (list Q)) : Q :=
  match n with
  | O => 1
  | S n' =>
      match M with
      | [] => 0
      | row :: rest =>
          fold_right Qplus 0
            (map (fun j => (if Nat.even j then 1 else -1) * nth j row 0
                           * det n' (map (remove_at j) rest))
                 (seq 0 n))
      end
  end.

Definition jacobian_det (sys : PartiallySolved) (x y0 p : string -> Q) : Q :=
  det (List.length (free_names sys))
      (map (map (eval x y0 p)) (jacobian sys)).

(** Concentration of a species in a reduced state: the free value, or the
    analytic expression of an eliminated species. *)
Definition concentration (sys : PartiallySolved) (x y0 p : string -> Q)
    (s : string) : Q :=
  match assoc s (analytic_exprs sys) with
  | Some e => eval x y0 p e
  | None => x s
  end.

(** *** The network of the notebook *)

Definition substances4 : list Substance := [
  mkSubstance "N" [("protein", 1%nat)];
  mkSubstance "U" [("protein", 1%nat)];
  mkSubstance "A" [("protein", 1%nat)];
  mkSubstance "L" [("ligand", 1%nat)];
  mkSubstance "NL" [("protein", 1%nat); ("ligand", 1%nat)]
].

(** [eq_dis.as_reactions(kb=kinetics_as)]: the forward rate coefficient is
    the equilibrium constant [K_dis] (Gibbs) times [kb]. *)
Definition r_dis : Reaction :=
  mkReaction [("NL", 1%nat)] [("N", 1%nat); ("L", 1%nat)] [] []
    (PMul (PPar "K_dis") (PPar "k_as")) "ligand-protein dissociation".
Definition r_as : Reaction :=
  mkReaction [("N", 1%nat); ("L", 1%nat)] [("NL", 1%nat)] [] []
    (PPar "k_as") "ligand-protein association".
(** [eq_u.as_reactions(kb=kinetics_f)], with [L] inactive on both sides. *)
Definition r_u : Reaction :=
  mkReaction [("N", 1%nat)] [("U", 1%nat)] [("L", 1%nat)] [("L", 1%nat)]
    (PMul (PPar "K_u") (PPar "k_f")) "protein unfolding".
Definition r_f : Reaction :=
  mkReaction [("U", 1%nat)] [("N", 1%nat)] [("L", 1%nat)] [("L", 1%nat)]
    (PPar "k_f") "protein folding".
Definition r_agg : Reaction :=
  mkReaction [("U", 1%nat)] [("A", 1%nat)] [("L", 1%nat)] [("L", 1%nat)]
    (PPar "k_agg") "protein aggregation".

Definition rsys_opt : option ReactionSystem :=
  mk_ReactionSystem [r_dis; r_as; r_u; r_f; r_agg] substances4.

Definition rsys : ReactionSystem :=
  mkReactionSystem [r_dis; r_as; r_u; r_f; r_agg] substances4.

End Network.

(* ------------------------------------------------------------------ *)
(** ** Part 3: the notebook's helpers for names, dicts and integration *)

(** Weighted total [sum_s v_s c_s] of a list of values (one per species)
    with integer weights: the value of the linear invariant [v]. *)
Module Invariants.
Import Network.
Local Open Scope Q_scope.

Fixpoint qdot (v : list Z) (c : list Q) : Q :=
  match v, c with
  | a :: v', b :: c' => inject_Z a * b + qdot v' c'
  | _, _ => 0
  end.

(** Rate of change of a species in the full system of the notebook. *)
Definition d_dt (x y0 p : string -> Q) (s : string) : Q :=
  match assoc s (rhs rsys) with Some e => eval x y0 p e | None => 0 end.

End Invariants.

(** String handling of the notebook: [str.replace], and [re.sub] for the
    patterns [<prefix>(\w+)] used by [pretty_replace].  Strings are ASCII,
    so [\w] is [[A-Za-z0-9_]]. *)
Module PyText.
Import Network.
Local Open Scope nat_scope.
Local Open Scope string_scope.

Fixpoint strip_prefix (P s : string) : option string :=
  match P, s with
  | EmptyString, _ => Some s
  | String a P', String b s' => if Ascii.eqb a b then strip_prefix P' s' else None
  | String _ _, EmptyString => None
  end.

(** [str.replace(old, new)] for a non-empty [old]: non-overlapping
    occurrences, left to right; [skip] counts the characters of the
    occurrence just replaced that remain to be passed over. *)
Fixpoint replace_aux (old new : string) (skip : nat) (s : string) : string :=
  match s with
  | EmptyString => EmptyString
  | String c s' =>
      match skip with
      | S k => replace_aux old new k s'
      | O =>
          match strip_prefix old s with
          | Some _ => new ++ replace_aux old new (pred (String.length old)) s'
          | None => String c (replace_aux old new 0 s')
          end
      end
  end.

(** [''] occurs before every character and at the end. *)
Fixpoint replace_empty (new s : string) : string :=
  match s with
  | EmptyString => new
  | String c s' => new ++ String c (replace_empty new s')
  end.

Definition py_replace (old new s : string) : string :=
  if String.eqb old "" then replace_empty new s else replace_aux old new 0 s.

(** Every character of a string satisfies [f]. *)
Fixpoint str_forall (f : ascii -> bool) (s : string) : bool :=
  match s with
  | EmptyString => true
  | String c s' => f c && str_forall f s'
  end.

Definition no_underscore (c : ascii) : bool := negb (Ascii.eqb c "_"%char).

Definition is_word_char (c : ascii) : bool :=
  let n := nat_of_ascii c in
  ((Nat.leb 48 n) && (Nat.leb n 57)) || ((Nat.leb 65 n) && (Nat.leb n 90))
  || ((Nat.leb 97 n) && (Nat.leb n 122)) || (Nat.eqb n 95).

(** Greedy [\w*] at the start of a string. *)
Fixpoint word_run (s : string) : string :=
  match s with
  | EmptyString => EmptyString
  | String c s' => if is_word_char c then String c (word_run s') else EmptyString
  end.

(** Match of [P(\w+)] at the start of [s]: the text of group 1. *)
Definition match_word (P s : string) : option string :=
  match strip_prefix P s with
  | Some r => match word_run r with
              | EmptyString => None
              | g => Some g
              end
  | None => None
  end.

(** Replacement templates of [re.sub]: literal characters and the
    reference [\1] to the only group of the patterns. *)
Inductive tpiece : Type :=
| TChar (c : ascii)
| TGroup1.

(** Letter escapes of templates ([\a \b \f \n \r \t \v]); any other letter
    is a bad escape. *)
Definition letter_escape (c : ascii) : option ascii :=
  match nat_of_ascii c with
  | 97 => Some (ascii_of_nat 7)
  | 98 => Some (ascii_of_nat 8)
  | 102 => Some (ascii_of_nat 12)
  | 110 => Some (ascii_of_nat 10)
  | 114 => Some (ascii_of_nat 13)
  | 116 => Some (ascii_of_nat 9)
  | 118 => Some (ascii_of_nat 11)
  | _ => None
  end.

Definition is_digit (c : ascii) : bool :=
  let n := nat_of_ascii c in (Nat.leb 48 n) && (Nat.leb n 57).

Definition is_letter (c : ascii) : bool :=
  let n := nat_of_ascii c in
  ((Nat.leb 65 n) && (Nat.leb n 90)) || ((Nat.leb 97 n) && (Nat.leb n 122)).

(** Template parsing, done by [re.sub] before any match: [\\] is a
    backslash, [\1] (not followed by a digit) is group 1, a letter escape is
    its character, a backslash before any other non-digit character is kept
    as it is; a bad escape, a trailing backslash and any other digit escape
    (a reference to a group these patterns do not have; octal escapes are
    refused too) raise [re.error], here [None]. *)
Fixpoint parse_template (t : string) : option (list tpiece) :=
  match t with
  | EmptyString => Some []
  | String c t' =>
      if Ascii.eqb c "\"%char then
        match t' with
        | EmptyString => None
        | String d t'' =>
            if Ascii.eqb d "\"%char then option_map (cons (TChar "\"%char)) (parse_template t'')
            else if Ascii.eqb d "1"%char then
              match t'' with
              | String e _ => if is_digit e then None
                              else option_map (cons TGroup1) (parse_template t'')
              | EmptyString => option_map (cons TGroup1) (parse_template t'')
              end
            else if is_digit d then None
            else if is_letter d then
              match letter_escape d with
              | Some e => option_map (cons (TChar e)) (parse_template t'')
              | None => None
              end
            else option_map (fun l => TChar "\"%char :: TChar d :: l) (parse_template t'')
        end
      else option_map (cons (TChar c)) (parse_template t')
  end.

Fixpoint expand (ps : list tpiece) (g : string) : string :=
  match ps with
  | [] => EmptyString
  | TChar c :: ps' => String c (expand ps' g)
  | TGroup1 :: ps' => g ++ expand ps' g
  end.

(** The scan of [re.sub]: at each position try the pattern; a match is
    replaced and the scan resumes after it, otherwise the character is
    kept. *)
Fixpoint sub_aux (P : string) (ps : list tpiece) (skip : nat) (s : string) : string :=
  match s with
  | EmptyString => EmptyString
  | String c s' =>
      match skip with
      | S k => sub_aux P ps k s'
      | O =>
          match match_word P s with
          | Some g => expand ps g ++ sub_aux P ps (pred (String.length P + String.length g)) s'
          | None => String c (sub_aux P ps 0 s')
          end
      end
  end.

(** [re.sub(P + '(\w+)', repl, s)]. *)
Definition re_sub (P repl s : string) : option string :=
  match parse_template repl with
  | Some ps => Some (sub_aux P ps 0 s)
  | None => None
  end.

(** The default [subs] of [pretty_replace], in dict order; each pattern is
    [<prefix>(\w+)] and is represented by its prefix. *)
Definition pretty_subs : list (string * string) := [
  ("Ha_", "\\Delta_{\1}H^{\\neq}");
  ("Sa_", "\\Delta_{\1}S^{\\neq}");
  ("He_", "\\Delta_{\1}H^\\circ");
  ("Se_", "\\Delta_{\1}S^\\circ");
  ("Cp_", "\\Delta_{\1}\,C_p");
  ("Tref_", "T^{\\circ}_{\1}")
].

(** [def pretty_replace(s, subs=None)] *)
Definition pretty_replace_with (subs : list (string * string)) (s : string)
    : option string :=
  fold_left (fun acc '(pattern, repl) =>
               match acc with
               | Some s' => re_sub pattern repl s'
               | None => None
               end) subs (Some s).

Definition pretty_replace (s : string) : option string :=
  pretty_replace_with pretty_subs s.

(** [P] disagrees with [a] at a position inside both: no occurrence of
    [P] starts at the beginning of [a ++ s], whatever [s]. *)
Fixpoint clash (P a : string) : bool :=
  match P, a with
  | String p P', String c a' => if Ascii.eqb p c then clash P' a' else true
  | _, _ => false
  end.

(** No occurrence of [P] starts inside [a], whatever follows [a]. *)
Fixpoint nomatch_in (P a : string) : bool :=
  match a with
  | EmptyString => true
  | String c a' => clash P a && nomatch_in P a'
  end.

(** [latex_name] of the substances of the notebook. *)
Definition substance_latex : list (string * string) := [
  ("N", "[N]"); ("U", "[U]"); ("A", "[A]"); ("L", "[L]"); ("NL", "[NL]")
].

(** [def mk_Symbol(key)]: the name of the symbol created. *)
Definition mk_Symbol (key : string) : option string :=
  match assoc key substance_latex with
  | Some latex => Some latex
  | None => pretty_replace (py_replace "temperature" "T" key)
  end.

(** [rxn.name.replace(' ', '~').replace('-','-')] *)
Definition rname (name : string) : string :=
  py_replace "-" "-" (py_replace " " "~" name).

End PyText.

(** Python dicts with float values as association lists in insertion
    order, and the dict handling of the notebook. *)
Module PyDict.
Import Network F64.
Local Open Scope R_scope.

Definition dict := list (string * R).

(** [d[k] = v]: an existing key keeps its place. *)
Fixpoint dict_set {A : Type} (k : string) (v : A) (d : list (string * A))
    : list (string * A) :=
  match d with
  | [] => [(k, v)]
  | (k', v') :: t => if String.eqb k k' then (k', v) :: t else (k', v') :: dict_set k v t
  end.

(** [d.get(k, default)] *)
Definition dict_get {A : Type} (k : string) (default : A) (d : list (string * A)) : A :=
  match assoc k d with Some v => v | None => default end.

(** [d.update(e)] *)
Definition dict_update (d e : dict) : dict :=
  fold_left (fun acc '(k, v) => dict_set k v acc) e d.

(** [d[k]] on a [defaultdict(float)]: a missing key is inserted with
    [0.0]; the value read and the dict afterwards. *)
Definition defaultdict_getitem (k : string) (d : dict) : R * dict :=
  match assoc k d with
  | Some v => (v, d)
  | None => (0, dict_set k 0 d)
  end.

(** [params_c0 = default_c0.copy(); params_c0.update(params)] *)
Definition params_c0 (default_c0 params : dict) : dict :=
  dict_update default_c0 params.

(** Values passed as keyword arguments. *)
Inductive pyval : Type :=
| PNone
| PInt (n : Z)
| PFloat (x : float)
| PStr (s : string)
| PObj (id : nat).   (* any other object, by identity *)

Definition kwdict := list (string * pyval).

(** The literal [1e-11]. *)
Definition tol_default : float := lit (1 # 10 ^ 11).

(** The keywords [integrate_and_plot] passes explicitly besides
    [**kwargs]. *)
Definition explicit_keywords : list string := ["integrator"; "nsteps"; "first_step"].

(** A key of [**kwargs] that repeats an explicit keyword makes the call
    raise [TypeError] ("got multiple values for keyword argument"). *)
Definition kw_clash (kwargs : kwdict) : bool :=
  existsb (fun k => match assoc k kwargs with Some _ => true | None => false end)
          explicit_keywords.

(** The arguments [integrate_and_plot] passes to [system.integrate]: the
    positional ones and the keyword arguments in order. *)
Record IntegrateCall := mkIntegrateCall {
  ic_tspan : pyval * pyval;
  ic_c0 : dict;
  ic_params : dict;
  ic_kwargs : kwdict
}.

(** [def integrate_and_plot(system, c0=None, first_step=None, t0=0, ...,
    nsteps=9000, **kwargs)], up to the call of [system.integrate];
    [None] is the [TypeError] of the call. *)
Definition integrate_and_plot_call (default_c0 params : dict) (h0max : float)
    (c0 : option dict) (first_step t0 nsteps : pyval) (kwargs : kwdict)
    : option IntegrateCall :=
  let c0 := match c0 with None => default_c0 | Some c => c end in
  let first_step := match first_step with
                    | PNone => PFloat (fmul h0max tol_default)
                    | f => f
                    end in
  let tend := PInt (3600 * 24) in
  let kwargs := dict_set "atol" (dict_get "atol" (PFloat tol_default) kwargs) kwargs in
  let kwargs := dict_set "rtol" (dict_get "rtol" (PFloat tol_default) kwargs) kwargs in
  if kw_clash kwargs then None
  else Some (mkIntegrateCall (t0, tend) c0 params
               (app [("integrator", PStr "cvode"); ("nsteps", nsteps);
                     ("first_step", first_step)] kwargs)).

End PyDict.

(* ================================================================== *)
(** ** Facts about the rate laws *)

Module RateFacts.
Import RateModel F64 PyFloat RateInputs.

(** *** Signs of float quotients *)






(** [math.log] raises [ValueError] on zeros and negative numbers. *)
Lemma math_log_nonpos (L : Libm) (x : float) :
  is_zero x = true \/ neg_result x -> math_1 false (m_log L) x = FErr ValueError.
Proof.
  intros [H|H]; destruct x as [[|]|[|]| |[|] m e]; try discriminate; try contradiction;
    reflexivity.
Qed.



(** *** Substitution into the symbolic result *)






(** *** A correctly rounded [exp] at [x_melt] *)

Lemma up_eq (r : R) (z : Z) : (IZR z - 1 <= r < IZR z)%R -> up r = z.
Proof. intros [H1 H2]. symmetry. apply tech_up; lra. Qed.

Local Open Scope R_scope.
Lemma exp_upper (x : R) : 0 < x < 1 -> exp x < / (1 - x).
Proof.
  intros [H0 H1].
  assert (E : 1 + - x < exp (- x)) by (apply exp_ineq1; lra).
  rewrite exp_Ropp in E.
  assert (0 < exp x) by apply exp_pos.
  assert (E2 : (1 - x) * exp x < 1).
  { replace 1 with (/ exp x * exp x) at 2 by (field; lra).
    apply Rmult_lt_compat_r; lra. }
  apply (Rmult_lt_reg_l (1 - x)); [lra|]. rewrite Rinv_r by lra. lra.
Qed.

Lemma libm_exp_x_melt : libm_exp x_melt = K_melt.
Proof.
  unfold libm_exp, x_melt.
  set (x := Q2R _).
  assert (Hx : x = 7156873706980354 / 2535301200456458802993406410752).
  { unfold x. vm_compute fval. unfold Q2R. simpl. reflexivity. }
  assert (Hlo : 1 + x < exp x) by (apply exp_ineq1; lra).
  assert (Hhi : exp x < / (1 - x)) by (apply exp_upper; lra).
  assert (Hhi' : / (1 - x) < 1 + x + 2 * x * x).
  { rewrite Hx. apply (Rmult_lt_reg_l (1 - x)); [lra|]. rewrite Rinv_r by lra. rewrite Hx. lra. }
  unfold round_R.
  destruct (Req_EM_T (exp x) 0) as [E|_]; [pose proof (exp_pos x); lra|].
  destruct (Rlt_dec (exp x) 0) as [E|_]; [pose proof (exp_pos x); lra|].
  rewrite Rabs_pos_eq by (pose proof (exp_pos x); lra).
  rewrite ln_exp.
  assert (Hln2 : 0 < ln 2) by (rewrite <- ln_1; apply ln_increasing; lra).
  assert (Hx2 : x < ln 2).
  { rewrite <- (ln_exp x). apply ln_increasing; [apply exp_pos|]. rewrite Hx in *. lra. }
  rewrite (up_eq (x / ln 2) 1).
  2:{ split; [|apply (Rmult_lt_reg_r (ln 2)); [lra|]; unfold Rdiv;
               rewrite Rmult_assoc, Rinv_l by lra; lra].
      assert (0 <= x / ln 2)
        by (unfold Rdiv; apply Rmult_le_pos; [rewrite Hx; lra | left; apply Rinv_0_lt_compat; lra]).
      simpl; lra. }
  change (Z.max (1 - 1 - 52) emin) with (-52)%Z.
  change (- -52)%Z with 52%Z.
  rewrite <- (Zpower_pos_powerRZ 2 52).
  change (Z.pow_pos 2 52) with 4503599627370496%Z.
  rewrite (up_eq (exp x * 4503599627370496) (4503599627370496 + 13)).
  2:{ rewrite Hx in *. rewrite !plus_IZR. split; lra. }
  replace (4503599627370496 + 13 - 1)%Z with (4503599627370496 + 12)%Z by reflexivity.
  destruct (Rlt_dec _ (1/2)) as [E|_].
  { rewrite plus_IZR in E. rewrite Hx in *. lra. }
  destruct (Rlt_dec (1/2) _) as [_|E].
  2:{ rewrite plus_IZR in E. rewrite Hx in *. lra. }
  vm_compute. reflexivity.
Qed.

Local Close Scope R_scope.

End RateFacts.

(* ================================================================== *)
(** ** Claims about the rate laws *)

Module RateClaims.
Import RateModel F64 PyFloat RateInputs RateFacts.

(** C1: for every backend (numeric or symbolic) and every input, [_gibbs]
    returns [exp(-(H2 - T*S2)/(R*T))] with [H2 = H + Cp*(T-Tref)] and
    [S2 = S + Cp*ln(T/Tref)], built with the inputs' own operators and the
    backend's [exp] and [log]; it is a pure function of its inputs. *)
Theorem gibbs_equilibrium_formula {V : Type} `{num : PyNum V} (backend : Backend V)
    (H S_ Cp Tref T R : V) :
  _gibbs backend (H, S_, Cp, Tref) T R =
  (let H2 := H + Cp*(T - Tref) in
   let S2 := S_ + Cp*b_log backend (T/Tref) in
   b_exp backend (-(H2 - T*S2)/(R*T)))%py.
Proof. reflexivity. Qed.

(** C2: for every backend and every input, [_eyring] returns
    [k_B/h * T * exp(-(H - T*S)/(R*T))]. *)
Theorem eyring_rate_formula {V : Type} `{num : PyNum V} (backend : Backend V)
    (H S_ T R k_B h : V) :
  _eyring backend (H, S_) T R k_B h =
  (k_B/h*T*b_exp backend (-(H - T*S_)/(R*T)))%py.
Proof. reflexivity. Qed.






(** C10 (amended): in exact arithmetic the claim holds: evaluating
    [Se0_from_Tm]'s expression and [_gibbs] on real numbers (real [exp]
    and [ln]), the constant at [T = Tm] with [S = Se0_from_Tm(Tm)] is
    exactly [1] for every [Tm > 0], [Tref > 0] and [R > 0].  With Python
    floats, whenever [Tm/Tref] rounds to zero (both finite and non-zero)
    [Se0_from_Tm] raises [ValueError] from [math.log], for every C
    library. *)
Theorem gibbs_at_melting_temperature (params : string -> R) (token : string) (Tm Rg : R) :
  (0 < Tm)%R -> (0 < params ("Tref_" ++ token))%R -> (0 < Rg)%R ->
  _gibbs real_backend (params ("He_" ++ token), Se0_from_Tm_exact params Tm token,
                       params ("Cp_" ++ token), params ("Tref_" ++ token)) Tm Rg = 1%R /\
  (forall (L : Libm) (fparams : list (string * float)) (fTm dH0 T0 dCp : float),
     getitem ("He_" ++ token) fparams = FOk dH0 ->
     getitem ("Tref_" ++ token) fparams = FOk T0 ->
     getitem ("Cp_" ++ token) fparams = FOk dCp ->
     is_finite fTm = true -> is_zero fTm = false -> is_zero T0 = false ->
     is_zero (fdiv fTm T0) = true ->
     Se0_from_Tm L fparams fTm token = FErr ValueError).
Proof.
  intros HTm HT0 HR. split.
  - unfold Se0_from_Tm_exact, Se0_formula, _gibbs.
    cbn [py_add py_sub py_mul py_div py_neg real_num real_backend b_exp b_log].
    generalize (params ("He_" ++ token)) (params ("Cp_" ++ token)) HT0.
    generalize (params ("Tref_" ++ token)). intros T0 H Cp HT0'.
    replace (- (H + Cp * (Tm - T0) -
                Tm * (H / Tm + (Tm - T0) * Cp / Tm - Cp * ln (Tm / T0)
                      + Cp * ln (Tm / T0))) / (Rg * Tm))%R with 0%R
      by (field; lra).
    apply exp_0.
  - intros L fparams fTm dH0 T0 dCp E1 E2 E3 Hfin HzTm HzT0 Hq.
    unfold Se0_from_Tm. rewrite E1, E2, E3. unfold Se0_formula.
    cbn [py_add py_sub py_mul py_div py_neg float_num lift2 lift1 b_log math_with].
    unfold float_div. rewrite HzTm, HzT0.
    unfold lift1 at 1. rewrite math_log_nonpos by (left; exact Hq). reflexivity.
Qed.

Lemma gibbs_at_melting_temperature_witness :
  _gibbs real_backend (params_u_exact "He_u", Se0_from_Tm_exact params_u_exact 321.35%R "u",
                       params_u_exact "Cp_u", params_u_exact "Tref_u") 321.35%R 8.314472%R = 1%R /\
  Se0_from_Tm libm params_u_underflow (lit (1 # Pos.pow 10 300)) "u" = FErr ValueError.
Proof.
  destruct (gibbs_at_melting_temperature params_u_exact "u" 321.35%R 8.314472%R) as [H1 H2];
    [lra | cbn; lra | lra |].
  split; [exact H1|].
  apply (H2 libm params_u_underflow (lit (1 # Pos.pow 10 300)) (lit 60000)
           (lit (Zpos (Pos.pow 10 300) # 1)) (lit 20500)); vm_compute; reflexivity.
Defined.

(** C10 counterexample: with Python floats and a correctly rounded C
    library, (1) [Tm = 1e-300] and [Tref = 1e300] make [Tm/Tref] underflow
    to [0.0] and [Se0_from_Tm] raises [ValueError]; (2) [He = 60000.0],
    [Cp = 1.0], [Tm = Tref = 310.0], [R = 8.314472] give
    [1.0000000000000029], not [1.0]. *)
Lemma gibbs_at_melting_temperature_in_floats :
  Se0_from_Tm libm params_u_underflow (lit (1 # Pos.pow 10 300)) "u" = FErr ValueError /\
  _gibbs math (FOk (lit 60000), Se0_from_Tm libm params_u_melt (lit 310) "u",
               FOk (lit 1), FOk (lit 310)) (FOk (lit 310)) (FOk (lit (8314472 # 1000000)))
  = FOk K_melt /\ K_melt <> lit 1.
Proof.
  split; [vm_compute; reflexivity|].
  split; [|vm_compute; discriminate].
  unfold _gibbs; cbv beta iota zeta.
  match goal with |- b_exp _ ?a = _ =>
    assert (Ea : a = FOk x_melt) by (vm_compute; reflexivity); rewrite Ea end.
  cbn [b_exp math math_with lift1]. unfold math_1. cbn [c_exp libm].
  rewrite libm_exp_x_melt. reflexivity.
Qed.

End RateClaims.

(* ================================================================== *)
(** ** Facts about the network model *)

Module NetworkFacts.
Import Network.
Local Open Scope Z_scope.
Local Open Scope list_scope.

Lemma unique_b_NoDup (l : list string) : unique_b l = true -> NoDup l.
Proof.
  induction l as [|a l IH]; simpl; intros H.
  - constructor.
  - apply andb_prop in H as [H1 H2]. constructor; [|auto].
    intro Hin. apply negb_true_iff in H1.
    assert (existsb (String.eqb a) l = true) as E.
    { apply existsb_exists. exists a. split; [exact Hin | apply String.eqb_refl]. }
    congruence.
Qed.

Lemma dot_map {A : Type} (f g : A -> Z) (l : list A) :
  dot (map f l) (map g l) = fold_right (fun a acc => f a * g a + acc) 0 l.
Proof. induction l as [|a l IH]; simpl; [reflexivity | now rewrite IH]. Qed.

Lemma sum_mul_sub {A : Type} (f g h : A -> Z) (l : list A) :
  fold_right (fun a acc => f a * (g a - h a) + acc) 0 l =
  fold_right (fun a acc => f a * g a + acc) 0 l
  - fold_right (fun a acc => f a * h a + acc) 0 l.
Proof. induction l as [|a l IH]; simpl; [reflexivity | rewrite IH; ring]. Qed.

Section ComponentSums.
Variable k : string.

Let c (sb : Substance) : Z := Z.of_nat (get0 k (s_composition sb)).

Lemma sum_coef_nil (subs : list Substance) :
  fold_right (fun sb acc => c sb * coef [] (s_name sb) + acc) 0 subs = 0.
Proof. induction subs as [|sb subs IH]; simpl in *; [reflexivity | rewrite IH; ring]. Qed.

Lemma sum_indicator_absent (s : string) (n : nat) (ms : stoich)
    (subs : list Substance) :
  ~ In s (map s_name subs) ->
  fold_right (fun sb acc =>
                c sb * ((if String.eqb (s_name sb) s then Z.of_nat n else 0)
                        + coef ms (s_name sb)) + acc) 0 subs =
  fold_right (fun sb acc => c sb * coef ms (s_name sb) + acc) 0 subs.
Proof.
  induction subs as [|sb subs IH]; simpl; intros Hn; [reflexivity|].
  destruct (String.eqb_spec (s_name sb) s) as [E|E].
  - exfalso. apply Hn. left. exact E.
  - rewrite IH by tauto. ring.
Qed.

Lemma sum_indicator_present (s : string) (n : nat) (ms : stoich)
    (subs : list Substance) :
  NoDup (map s_name subs) -> In s (map s_name subs) ->
  fold_right (fun sb acc =>
                c sb * ((if String.eqb (s_name sb) s then Z.of_nat n else 0)
                        + coef ms (s_name sb)) + acc) 0 subs =
  Z.of_nat n * comp_of subs s k
  + fold_right (fun sb acc => c sb * coef ms (s_name sb) + acc) 0 subs.
Proof.
  induction subs as [|sb subs IH]; simpl; intros Hnd Hin; [contradiction|].
  inversion Hnd as [|x l Hnotin Hnd' Heq]; subst.
  unfold comp_of; simpl.
  destruct (String.eqb_spec (s_name sb) s) as [E|E].
  - subst s. rewrite sum_indicator_absent by exact Hnotin.
    unfold c. ring.
  - destruct Hin as [Hin|Hin]; [contradiction|].
    rewrite IH by assumption. unfold comp_of. ring.
Qed.

(** The composition row of component [k], weighted by the coefficients of
    a stoichiometry dict, is that side's composition in [k]. *)
Lemma sum_coef (subs : list Substance) (ms : stoich) :
  NoDup (map s_name subs) ->
  (forall s n, In (s, n) ms -> In s (map s_name subs)) ->
  fold_right (fun sb acc => c sb * coef ms (s_name sb) + acc) 0 subs =
  side_composition subs ms k.
Proof.
  intros Hnd. induction ms as [|[s n] ms IH]; intros Hin.
  - apply sum_coef_nil.
  - simpl. rewrite sum_indicator_present by (auto; eapply Hin; left; reflexivity).
    rewrite IH by (intros; eapply Hin; right; eassumption). reflexivity.
Qed.

End ComponentSums.

Lemma known_In (subs : list Substance) (r : Reaction) (s : string) (n : nat) :
  known subs r = true -> In (s, n) (all_reactants r ++ all_products r) ->
  In s (map s_name subs).
Proof.
  unfold known. intros Hk Hin.
  rewrite forallb_forall in Hk. specialize (Hk _ Hin). simpl in Hk.
  apply existsb_exists in Hk as [sb [Hsb E]].
  apply String.eqb_eq in E. subst s. now apply in_map.
Qed.

(** Every composition row annihilates the change vector of every reaction
    accepted by the constructor. *)
Lemma composition_row_annihilates (subs : list Substance) (r : Reaction) (k : string) :
  NoDup (map s_name subs) -> known subs r = true -> balanced subs r = true ->
  In k (composition_keys subs) ->
  dot (map (fun sb => Z.of_nat (get0 k (s_composition sb))) subs)
      (net_stoich subs r) = 0.
Proof.
  intros Hnd Hk Hb Hck. unfold net_stoich. rewrite dot_map, sum_mul_sub.
  assert (HP : forall s n, In (s, n) (all_products r) -> In s (map s_name subs))
    by (intros s n Hin; eapply known_In; [eassumption|];
        apply in_or_app; right; exact Hin).
  assert (HR : forall s n, In (s, n) (all_reactants r) -> In s (map s_name subs))
    by (intros s n Hin; eapply known_In; [eassumption|];
        apply in_or_app; left; exact Hin).
  rewrite (sum_coef k subs (all_products r) Hnd HP),
          (sum_coef k subs (all_reactants r) Hnd HR).
  unfold balanced in Hb. rewrite forallb_forall in Hb.
  specialize (Hb k Hck). apply Z.eqb_eq in Hb. lia.
Qed.

Lemma mk_ReactionSystem_inv (rs : list Reaction) (subs : list Substance)
    (net : ReactionSystem) :
  mk_ReactionSystem rs subs = Some net ->
  net = mkReactionSystem rs subs /\ NoDup (map s_name subs)
  /\ forallb (known subs) rs = true /\ forallb (balanced subs) rs = true.
Proof.
  unfold mk_ReactionSystem.
  destruct (unique_b (map s_name subs)) eqn:E1; simpl; [|discriminate].
  destruct (forallb (known subs) rs) eqn:E2; simpl; [|discriminate].
  destruct (forallb (balanced subs) rs) eqn:E3; simpl; [|discriminate].
  intros H. injection H as <-. repeat split; auto using unique_b_NoDup.
Qed.

Lemma balance_vectors_annihilate (rs : list Reaction) (subs : list Substance)
    (net : ReactionSystem) :
  mk_ReactionSystem rs subs = Some net ->
  forall v r, In v (fst (composition_balance_vectors net)) -> In r rs ->
  dot v (net_stoich subs r) = 0.
Proof.
  intros Hmk v r Hv Hr.
  destruct (mk_ReactionSystem_inv rs subs net Hmk) as (-> & Hnd & Hk & Hb).
  unfold composition_balance_vectors in Hv. simpl in Hv.
  apply in_map_iff in Hv as [k [<- Hck]].
  rewrite forallb_forall in Hk, Hb.
  apply composition_row_annihilates; auto.
Qed.

Lemma find_by_name (subs : list Substance) (sb : Substance) :
  NoDup (map s_name subs) -> In sb subs ->
  find (fun sb' => String.eqb (s_name sb') (s_name sb)) subs = Some sb.
Proof.
  induction subs as [|sb0 subs IH]; simpl; intros Hnd Hin; [contradiction|].
  inversion Hnd as [|x l Hnotin Hnd' Heq]; subst.
  destruct Hin as [<-|Hin].
  - now rewrite String.eqb_refl.
  - destruct (String.eqb_spec (s_name sb0) (s_name sb)) as [E|E].
    + exfalso. apply Hnotin. rewrite E. now apply in_map.
    + now apply IH.
Qed.

Lemma find_pivot_length (j : nat) (rows : list (list Q)) piv rest :
  find_pivot j rows = Some (piv, rest) -> S (List.length rest) = List.length rows.
Proof.
  revert piv rest. induction rows as [|r rows IH]; simpl; intros piv rest H;
    [discriminate|].
  destruct (Qeq_bool (nth j r 0%Q) 0%Q).
  - destruct (find_pivot j rows) as [[p' rest']|] eqn:E; [|discriminate].
    injection H as <- <-. simpl. now rewrite (IH p' rest').
  - now injection H as <- <-.
Qed.

Lemma rank_cols_le (cols : list nat) (rows : list (list Q)) :
  (rank_cols cols rows <= List.length rows)%nat.
Proof.
  revert rows. induction cols as [|j cols IH]; simpl; intros rows; [lia|].
  destruct (find_pivot j rows) as [[piv rest]|] eqn:E; [|apply IH].
  apply find_pivot_length in E.
  specialize (IH (map (elim_row j (scale_row (/ nth j piv 0%Q) piv)) rest)).
  rewrite length_map in IH. lia.
Qed.

Lemma rank_le_rows (A : list (list Z)) : (rank A <= List.length A)%nat.
Proof.
  unfold rank. etransitivity; [apply rank_cols_le|]. now rewrite length_map.
Qed.

Lemma Qneq_transfer (a b : Q) : (a == b -> ~ b == 0 -> ~ a == 0)%Q.
Proof. intros E Hb Ha. apply Hb. now rewrite <- E. Qed.

Lemma map_const_zero {A : Type} (f : A -> Z) (l : list A) :
  (forall a, In a l -> f a = 0) -> map f l = repeat 0 (List.length l).
Proof.
  induction l as [|a l IH]; simpl; intros H; [reflexivity|].
  rewrite H, IH by auto. reflexivity.
Qed.

(** *** Rank of dependent rows *)

Local Open Scope Q_scope.

Lemma row_comb_app (l1 l2 : list (Q * list Q)) (k : nat) :
  row_comb (l1 ++ l2) k == row_comb l1 k + row_comb l2 k.
Proof.
  induction l1 as [|[c r] l1 IH]; simpl; [ring|].
  rewrite IH. ring.
Qed.

Lemma nth_zip_elim (c : Q) (p r : list Q) (k : nat) :
  List.length p = List.length r ->
  nth k (zip_with (fun a b => b - c * a) p r) 0 == nth k r 0 - c * nth k p 0.
Proof.
  revert r k. induction p as [|a p IH]; intros [|b r] k Hl; try discriminate.
  - destruct k; simpl; ring.
  - destruct k; simpl; [reflexivity|]. apply IH. simpl in Hl. lia.
Qed.

Lemma nth_elim_row (j k : nat) (p r : list Q) :
  List.length p = List.length r ->
  nth k (elim_row j p r) 0 == nth k r 0 - nth j r 0 * nth k p 0.
Proof. intros Hl. unfold elim_row. now apply nth_zip_elim. Qed.

Lemma nth_scale_row (c : Q) (r : list Q) (k : nat) :
  nth k (scale_row c r) 0 == c * nth k r 0.
Proof.
  unfold scale_row. revert k. induction r as [|a r IH]; intros [|k]; simpl; try ring.
  apply IH.
Qed.

Lemma length_zip_with (f : Q -> Q -> Q) (a b : list Q) :
  List.length a = List.length b -> List.length (zip_with f a b) = List.length a.
Proof.
  revert b. induction a as [|x a IH]; intros [|y b] H; try discriminate; simpl; [reflexivity|].
  f_equal. apply IH. simpl in H. lia.
Qed.

Lemma row_comb_elim (j : nat) (p : list Q) (l : list (Q * list Q)) (k : nat) :
  (forall c r, In (c, r) l -> List.length r = List.length p) ->
  row_comb (map (fun '(c, r) => (c, elim_row j p r)) l) k ==
  row_comb l k - row_comb l j * nth k p 0.
Proof.
  induction l as [|[c r] l IH]; intros Hl; simpl; [ring|].
  rewrite IH by (intros; eapply Hl; right; eassumption).
  rewrite nth_elim_row by (symmetry; eapply Hl; left; reflexivity). ring.
Qed.

Lemma find_pivot_split (j : nat) (rows : list (list Q)) piv rest :
  find_pivot j rows = Some (piv, rest) ->
  exists pre post, rows = pre ++ piv :: post /\ rest = pre ++ post /\
                   ~ nth j piv 0 == 0.
Proof.
  revert piv rest. induction rows as [|r rows IH]; simpl; intros piv rest H; [discriminate|].
  destruct (Qeq_bool (nth j r 0) 0) eqn:E.
  - destruct (find_pivot j rows) as [[p' rest']|] eqn:E'; [|discriminate].
    injection H as <- <-. destruct (IH p' rest' eq_refl) as (pre & post & -> & -> & Hn).
    exists (r :: pre), post. repeat split; auto.
  - injection H as <- <-. exists [], rows. repeat split; auto.
    intros Hq. apply Qeq_bool_iff in Hq. congruence.
Qed.

Lemma row_comb_all_zero (l : list (Q * list Q)) (k : nat) :
  (forall c r, In (c, r) l -> c == 0) -> row_comb l k == 0.
Proof.
  induction l as [|[c r] l IH]; intros H; simpl; [reflexivity|].
  rewrite (H c r (or_introl eq_refl)), IH by (intros; eapply H; right; eassumption). ring.
Qed.

Lemma nonzero_coef_dec (l : list (Q * list Q)) :
  (exists c r, In (c, r) l /\ ~ c == 0) \/ (forall c r, In (c, r) l -> c == 0).
Proof.
  induction l as [|[c r] l IH].
  - right. intros ? ? [].
  - destruct (Qeq_dec c 0) as [E|E].
    + destruct IH as [(c' & r' & H & Hn)|IH].
      * left. exists c', r'. split; [right; exact H | exact Hn].
      * right. intros c' r' [Heq|H]; [injection Heq as <- <-; exact E | eauto].
    + left. exists c, r. split; [left; reflexivity | exact E].
Qed.

(** Gauss-Jordan elimination finds fewer pivots than rows when a
    non-trivial combination of the rows (all of one length) is zero. *)
Lemma rank_cols_dependent (cols : list nat) :
  forall (rows : list (list Q)) (n : nat) (cr : list (Q * list Q)),
  (forall r, In r rows -> List.length r = n) ->
  map snd cr = rows ->
  (exists c r, In (c, r) cr /\ ~ c == 0) ->
  (forall k, row_comb cr k == 0) ->
  (rank_cols cols rows < List.length rows)%nat.
Proof.
  induction cols as [|j cols IH]; intros rows n cr Hlen Hcr Hnz Hz; simpl.
  - destruct Hnz as (c & r & Hin & _). subst rows. destruct cr; [contradiction | simpl; lia].
  - destruct (find_pivot j rows) as [[piv rest]|] eqn:E; [|eapply IH; eassumption].
    pose proof (find_pivot_length j rows piv rest E) as HL.
    destruct (find_pivot_split j rows piv rest E) as (pre & post & Hrows & Hrest & Hpiv).
    rewrite Hrows in Hcr, Hlen, HL |- *. clear Hrows.
    apply map_eq_app in Hcr as (cpre & cr2 & -> & Hpre & Hcr2).
    destruct cr2 as [|[cp p] cpost]; [discriminate|].
    simpl in Hcr2. injection Hcr2 as Hp Hpost. subst p.
    set (piv' := scale_row (/ nth j piv 0) piv).
    assert (Hlp : List.length piv = n) by (apply Hlen; apply in_or_app; right; left; reflexivity).
    assert (Hlp' : List.length piv' = n) by (unfold piv', scale_row; now rewrite length_map).
    set (cr' := map (fun '(c, r) => (c, elim_row j piv' r)) (cpre ++ cpost)).
    assert (Hlens : forall c r, In (c, r) (cpre ++ cpost) -> List.length r = List.length piv').
    { intros c r Hin. rewrite Hlp'. apply Hlen.
      assert (In r (map snd (cpre ++ cpost))) by (apply (in_map snd) in Hin; exact Hin).
      rewrite map_app, Hpre, Hpost in H. apply in_app_or in H as [H|H]; apply in_or_app; auto.
      right; right; exact H. }
    assert (Hsplit : forall k, row_comb (cpre ++ (cp, piv) :: cpost) k ==
                               row_comb (cpre ++ cpost) k + cp * nth k piv 0).
    { intros k. rewrite !row_comb_app. simpl. ring. }
    assert (IHs : (rank_cols cols (map (elim_row j piv') rest) < List.length (map (elim_row j piv') rest))%nat).
    { apply (IH _ n cr').
      - intros r Hin. apply in_map_iff in Hin as [r0 [<- Hin]].
        unfold elim_row. rewrite length_zip_with; [exact Hlp'|].
        rewrite Hlp'. symmetry. apply Hlen. subst rest.
        apply in_app_or in Hin as [H|H]; apply in_or_app; auto. right; right; exact H.
      - unfold cr'. rewrite map_map, map_app, Hrest, map_app, <- Hpre, <- Hpost, !map_map.
        f_equal; apply map_ext; intros [c r]; reflexivity.
      - destruct (nonzero_coef_dec (cpre ++ cpost)) as [(c & r & Hin & Hc)|Hall].
        + exists c, (elim_row j piv' r). split; [|exact Hc].
          unfold cr'. apply (in_map (fun '(c, r) => (c, elim_row j piv' r))) in Hin. exact Hin.
        + exfalso. destruct Hnz as (c & r & Hin & Hc).
          apply in_app_or in Hin as [Hin|[Heq|Hin]].
          * apply Hc, (Hall c r), in_or_app; left; exact Hin.
          * injection Heq as <- <-.
            specialize (Hz j). rewrite Hsplit, (row_comb_all_zero _ _ Hall) in Hz.
            apply Hpiv. apply (Qmult_integral_l cp); [exact Hc|]. rewrite Qplus_0_l in Hz. exact Hz.
          * apply Hc, (Hall c r), in_or_app; right; exact Hin.
      - intros k. unfold cr'. rewrite row_comb_elim by exact Hlens.
        pose proof (Hz k) as Hk. pose proof (Hz j) as Hj. rewrite Hsplit in Hk, Hj.
        unfold piv'. rewrite nth_scale_row.
        setoid_replace (row_comb (cpre ++ cpost) k) with (- (cp * nth k piv 0))
          by (apply (Qplus_inj_r _ _ (cp * nth k piv 0)); rewrite Hk; ring).
        setoid_replace (row_comb (cpre ++ cpost) j) with (- (cp * nth j piv 0))
          by (apply (Qplus_inj_r _ _ (cp * nth j piv 0)); rewrite Hj; ring).
        field. exact Hpiv. }
    rewrite length_map in IHs. subst rest. rewrite !length_app in *. simpl in *. lia.
Qed.
Local Close Scope Q_scope.

Lemma dot_self_nonneg (v : list Z) : (0 <= dot v v)%Z.
Proof. induction v as [|a v IH]; simpl; nia. Qed.

Lemma dot_self_pos (v : list Z) : (exists x, In x v /\ x <> 0%Z) -> (0 < dot v v)%Z.
Proof.
  induction v as [|a v IH]; simpl; intros (x & Hin & Hx); [contradiction|].
  pose proof (dot_self_nonneg v).
  destruct Hin as [<-|Hin]; [nia|].
  assert (0 < dot v v)%Z by (apply IH; eauto). nia.
Qed.

Lemma balance_rows_length (net : ReactionSystem) (r : list Q) :
  In r (map (map inject_Z) (fst (composition_balance_vectors net))) ->
  List.length r = List.length (substances net).
Proof.
  unfold composition_balance_vectors. simpl. intros Hin.
  apply in_map_iff in Hin as [v [<- Hin]]. apply in_map_iff in Hin as [k [<- _]].
  now rewrite !length_map.
Qed.

End NetworkFacts.

(** Facts about the reductions of the notebook's network. *)
Module ReductionFacts.
Import Network NetworkFacts.
Local Open Scope Q_scope.
Local Open Scope list_scope.

(** [k3 * k5 * (k1 + k2 * n)] is positive for positive rate parameters and
    a non-negative [n]. *)
Lemma det_factor_pos (p : string -> Q) (n : Q) :
  (forall k, 0 < p k) -> 0 <= n ->
  0 < (p "K_u" * p "k_f") * p "k_agg" * (p "K_dis" * p "k_as" + p "k_as" * n).
Proof.
  intros Hp Hn.
  apply Qmult_lt_0_compat; [apply Qmult_lt_0_compat; [apply Qmult_lt_0_compat|]|];
    try apply Hp.
  assert (0 < p "K_dis" * p "k_as") by (apply Qmult_lt_0_compat; apply Hp).
  assert (0 <= p "k_as" * n) by (apply Qmult_le_0_compat; [apply Qlt_le_weak, Hp | exact Hn]).
  lra.
Qed.

(** Eliminating [L] and [N]: the Jacobian determinant over the free species
    [U], [A], [NL] is [-k3 k5 (k1 + k2 [N])], with [[N]] the reconstructed
    native-protein concentration. *)
Lemma reduced_LN_nonsingular (S : PartiallySolved) (x y0 p : string -> Q) :
  reduce rsys ["L"; "N"] = Some S -> (forall k, 0 < p k) ->
  (forall s, In s (substance_names rsys) -> 0 <= concentration S x y0 p s) ->
  ~ jacobian_det S x y0 p == 0.
Proof.
  intros HS Hp Hc.
  assert (HN : 0 <= y0 "N" + y0 "U" + y0 "A" + y0 "NL" - x "U" - x "A" - x "NL").
  { specialize (Hc "N" ltac:(simpl; tauto)).
    vm_compute in HS. injection HS as <-. unfold concentration in Hc.
    cbn -[Qplus Qmult Qopp Qminus] in Hc. lra. }
  apply (Qneq_transfer _ (- ((p "K_u" * p "k_f") * p "k_agg" *
           (p "K_dis" * p "k_as" + p "k_as" *
              (y0 "N" + y0 "U" + y0 "A" + y0 "NL" - x "U" - x "A" - x "NL"))))).
  - vm_compute in HS. injection HS as <-. unfold jacobian_det.
    cbn -[Qplus Qmult Qopp Qminus]. ring.
  - pose proof (det_factor_pos p _ Hp HN). lra.
Qed.

(** Eliminating [L] and [A]: over the free species [N], [U], [NL] the
    determinant is [-k3 k5 (k1 + k2 [N])]. *)
Lemma reduced_LA_nonsingular (S : PartiallySolved) (x y0 p : string -> Q) :
  reduce rsys ["L"; "A"] = Some S -> (forall k, 0 < p k) ->
  (forall s, In s (substance_names rsys) -> 0 <= concentration S x y0 p s) ->
  ~ jacobian_det S x y0 p == 0.
Proof.
  intros HS Hp Hc.
  assert (HN : 0 <= x "N").
  { specialize (Hc "N" ltac:(simpl; tauto)).
    vm_compute in HS. injection HS as <-. unfold concentration in Hc.
    cbn -[Qplus Qmult Qopp Qminus] in Hc. exact Hc. }
  apply (Qneq_transfer _ (- ((p "K_u" * p "k_f") * p "k_agg" *
           (p "K_dis" * p "k_as" + p "k_as" * x "N")))).
  - vm_compute in HS. injection HS as <-. unfold jacobian_det.
    cbn -[Qplus Qmult Qopp Qminus]. ring.
  - pose proof (det_factor_pos p _ Hp HN). lra.
Qed.

End ReductionFacts.

(* ================================================================== *)
(** ** Claims about the invariant reduction *)

Module NetworkClaims.
Import Network NetworkFacts ReductionFacts.
Local Open Scope list_scope.

(** C5 (amended): the vectors returned by [composition_balance_vectors]
    form the composition matrix A itself (one row per component, one
    coefficient per substance).  A returned vector with a non-zero entry
    is not annihilated by A: its product with some row of A (itself) is
    non-zero.  Every returned vector lies in the left null-space of the
    stoichiometry matrix: its product with the change vector of every
    reaction of a network accepted by the constructor is [0]. *)
Theorem balance_vectors_not_null_but_conserved (rs : list Reaction)
    (subs : list Substance) (net : ReactionSystem) :
  mk_ReactionSystem rs subs = Some net ->
  forall v, In v (fst (composition_balance_vectors net)) ->
    ((exists x, In x v /\ x <> 0%Z) ->
       ~ (forall w, In w (fst (composition_balance_vectors net)) -> dot w v = 0%Z))
    /\ (forall r, In r rs -> dot v (net_stoich subs r) = 0%Z).
Proof.
  intros Hmk v Hv. split.
  - intros Hnz Hall. specialize (Hall v Hv). pose proof (dot_self_pos v Hnz). lia.
  - intros r Hr. exact (balance_vectors_annihilate rs subs net Hmk v r Hv Hr).
Qed.

Lemma balance_vectors_not_null_but_conserved_witness :
  mk_ReactionSystem [r_dis; r_as; r_u; r_f; r_agg] substances4 = Some rsys /\
  forall v, In v (fst (composition_balance_vectors rsys)) ->
    ((exists x, In x v /\ x <> 0%Z) ->
       ~ (forall w, In w (fst (composition_balance_vectors rsys)) -> dot w v = 0%Z))
    /\ (forall r, In r [r_dis; r_as; r_u; r_f; r_agg] ->
          dot v (net_stoich substances4 r) = 0%Z).
Proof.
  assert (H : mk_ReactionSystem [r_dis; r_as; r_u; r_f; r_agg] substances4 = Some rsys)
    by (vm_compute; reflexivity).
  split; [exact H|].
  exact (balance_vectors_not_null_but_conserved _ _ _ H).
Defined.

(** C5 counterexample: for the notebook's network the composition matrix
    A has two independent rows, so its left null-space is [{0}], yet two
    invariant vectors are returned; and the first of them (protein) is not
    orthogonal to the rows of A ([v . v = 4]). *)
Lemma notebook_invariants_not_in_left_null_space :
  let A := fst (composition_balance_vectors rsys) in
  List.length A = 2%nat /\
  (forall a b : Z,
     (forall j, (j < 5)%nat ->
        (a * nth j (nth 0 A []) 0 + b * nth j (nth 1 A []) 0 = 0)%Z) ->
     a = 0%Z /\ b = 0%Z) /\
  dot (nth 0 A []) (nth 0 A []) <> 0%Z.
Proof.
  cbv zeta.
  change (fst (composition_balance_vectors rsys))
    with [[1; 1; 1; 0; 1]; [0; 0; 0; 1; 1]]%Z.
  split; [reflexivity|]. split.
  - intros a b H. pose proof (H 0%nat ltac:(lia)) as H0.
    pose proof (H 3%nat ltac:(lia)) as H3. simpl in H0, H3. lia.
  - simpl. discriminate.
Qed.

(** C6 (amended): [composition_balance_vectors] returns one vector per
    component key, not reduced to an independent set: their number is at
    least the rank of the composition matrix, and greater than it whenever
    a non-trivial rational combination of them is zero.  Every returned
    vector annihilates the change vector of every reaction of a network
    accepted by the constructor. *)
Theorem balance_vectors_count_rank_annihilation (rs : list Reaction)
    (subs : list Substance) (net : ReactionSystem) :
  mk_ReactionSystem rs subs = Some net ->
  List.length (fst (composition_balance_vectors net)) =
    List.length (snd (composition_balance_vectors net))
  /\ (rank (fst (composition_balance_vectors net))
      <= List.length (fst (composition_balance_vectors net)))%nat
  /\ (forall cr : list (Q * list Q),
        map snd cr = map (map inject_Z) (fst (composition_balance_vectors net)) ->
        (exists c r, In (c, r) cr /\ ~ (c == 0)%Q) ->
        (forall k, row_comb cr k == 0)%Q ->
        (rank (fst (composition_balance_vectors net))
         < List.length (fst (composition_balance_vectors net)))%nat)
  /\ forall v r, In v (fst (composition_balance_vectors net)) -> In r rs ->
       dot v (net_stoich subs r) = 0%Z.
Proof.
  intros Hmk. split; [|split; [|split]].
  - unfold composition_balance_vectors. simpl. now rewrite length_map.
  - apply rank_le_rows.
  - intros cr Hcr Hnz Hz. unfold rank.
    rewrite <- (length_map (map inject_Z)).
    apply (rank_cols_dependent _ _ (List.length (substances net)) cr);
      [apply balance_rows_length | exact Hcr | exact Hnz | exact Hz].
  - exact (balance_vectors_annihilate rs subs net Hmk).
Qed.

Lemma balance_vectors_count_rank_annihilation_witness :
  mk_ReactionSystem [r_dis; r_as; r_u; r_f; r_agg] substances4 = Some rsys /\
  List.length (fst (composition_balance_vectors rsys)) =
    List.length (snd (composition_balance_vectors rsys))
  /\ (rank (fst (composition_balance_vectors rsys))
      <= List.length (fst (composition_balance_vectors rsys)))%nat
  /\ (forall cr : list (Q * list Q),
        map snd cr = map (map inject_Z) (fst (composition_balance_vectors rsys)) ->
        (exists c r, In (c, r) cr /\ ~ (c == 0)%Q) ->
        (forall k, row_comb cr k == 0)%Q ->
        (rank (fst (composition_balance_vectors rsys))
         < List.length (fst (composition_balance_vectors rsys)))%nat)
  /\ forall v r, In v (fst (composition_balance_vectors rsys)) ->
       In r [r_dis; r_as; r_u; r_f; r_agg] ->
       dot v (net_stoich substances4 r) = 0%Z.
Proof.
  assert (H : mk_ReactionSystem [r_dis; r_as; r_u; r_f; r_agg] substances4 = Some rsys)
    by (vm_compute; reflexivity).
  split; [exact H|].
  exact (balance_vectors_count_rank_annihilation _ _ _ H).
Defined.

(** C6 counterexample: two substances [X], [Y] of composition
    [{a: 1, b: 1}] and the balanced reaction [X -> Y]: two invariant
    vectors are returned, and they are equal, while the composition matrix
    has rank 1. *)
Lemma dependent_balance_vectors :
  exists net,
    mk_ReactionSystem [mkReaction [("X", 1%nat)] [("Y", 1%nat)] [] [] (PPar "k") "X to Y"]
      [mkSubstance "X" [("a", 1%nat); ("b", 1%nat)];
       mkSubstance "Y" [("a", 1%nat); ("b", 1%nat)]] = Some net
    /\ List.length (fst (composition_balance_vectors net)) = 2%nat
    /\ nth 0 (fst (composition_balance_vectors net)) [] =
       nth 1 (fst (composition_balance_vectors net)) []
    /\ rank (fst (composition_balance_vectors net)) = 1%nat.
Proof.
  eexists. split; [reflexivity|]. vm_compute. split; [|split]; reflexivity.
Qed.

(** C7: for the notebook's network (accepted by the constructor) the
    composition matrix gives exactly 2 independent invariants; eliminating
    [{L, N}] leaves the free species [U, A, NL], eliminating [{L, A}]
    leaves [N, U, NL]; both reduced systems have 3 equations and a
    non-singular Jacobian at every physical state (positive rate
    parameters, non-negative concentrations). *)
Theorem four_state_network_reductions (x y0 p : string -> Q) :
  rsys_opt = Some rsys /\
  List.length (fst (composition_balance_vectors rsys)) = 2%nat /\
  rank (fst (composition_balance_vectors rsys)) = 2%nat /\
  (exists S, reduce rsys ["L"; "N"] = Some S /\
     free_names S = ["U"; "A"; "NL"] /\ List.length (exprs S) = 3%nat /\
     ((forall k, (0 < p k)%Q) ->
      (forall s, In s (substance_names rsys) -> (0 <= concentration S x y0 p s)%Q) ->
      ~ (jacobian_det S x y0 p == 0)%Q)) /\
  (exists S, reduce rsys ["L"; "A"] = Some S /\
     free_names S = ["N"; "U"; "NL"] /\ List.length (exprs S) = 3%nat /\
     ((forall k, (0 < p k)%Q) ->
      (forall s, In s (substance_names rsys) -> (0 <= concentration S x y0 p s)%Q) ->
      ~ (jacobian_det S x y0 p == 0)%Q)).
Proof.
  split; [vm_compute; reflexivity|].
  split; [vm_compute; reflexivity|].
  split; [vm_compute; reflexivity|].
  split.
  - destruct (reduce rsys ["L"; "N"]) as [S|] eqn:HS; [|vm_compute in HS; discriminate].
    exists S. split; [reflexivity|].
    split; [vm_compute in HS; injection HS as <-; reflexivity|].
    split; [vm_compute in HS; injection HS as <-; reflexivity|].
    intros Hp Hc. exact (reduced_LN_nonsingular S x y0 p HS Hp Hc).
  - destruct (reduce rsys ["L"; "A"]) as [S|] eqn:HS; [|vm_compute in HS; discriminate].
    exists S. split; [reflexivity|].
    split; [vm_compute in HS; injection HS as <-; reflexivity|].
    split; [vm_compute in HS; injection HS as <-; reflexivity|].
    intros Hp Hc. exact (reduced_LA_nonsingular S x y0 p HS Hp Hc).
Qed.

(** The hypotheses of the non-singularity statements hold at a physical
    state: every parameter, initial and free concentration equal to [1]
    (the reconstructed [[N]] is then [3] and [[L]] is [1]). *)
Lemma four_state_network_reductions_witness :
  exists S, reduce rsys ["L"; "N"] = Some S /\
    (forall k : string, (0 < (fun _ : string => 1%Q) k)%Q) /\
    (forall s, In s (substance_names rsys) ->
       (0 <= concentration S (fun _ : string => 1%Q) (fun _ : string => 1%Q)
                (fun _ : string => 1%Q) s)%Q) /\
    ~ (jacobian_det S (fun _ : string => 1%Q) (fun _ : string => 1%Q)
         (fun _ : string => 1%Q) == 0)%Q.
Proof.
  destruct (four_state_network_reductions (fun _ => 1%Q) (fun _ => 1%Q) (fun _ => 1%Q))
    as (_ & _ & _ & (S & HS & _ & _ & Hns) & _).
  assert (Hp : forall k : string, (0 < (fun _ : string => 1%Q) k)%Q)
    by (intros; reflexivity).
  assert (Hc : forall s, In s (substance_names rsys) ->
            (0 <= concentration S (fun _ : string => 1%Q) (fun _ : string => 1%Q)
                    (fun _ : string => 1%Q) s)%Q).
  { vm_compute in HS. injection HS as <-.
    intros s Hs. simpl in Hs.
    repeat destruct Hs as [<-|Hs]; try contradiction; vm_compute; discriminate. }
  exists S. split; [exact HS|]. split; [exact Hp|]. split; [exact Hc|].
  exact (Hns Hp Hc).
Defined.

End NetworkClaims.

(* ================================================================== *)
(** ** Further properties of the rate equations and their reductions *)

Module NetworkExtras.
Import Network NetworkFacts Invariants.
Local Open Scope Q_scope.
Local Open Scope list_scope.

Lemma eval_ext (x x' y0 p : string -> Q) (e : pexpr) :
  (forall s, x s == x' s) -> eval x y0 p e == eval x' y0 p e.
Proof.
  intros Hx. induction e; simpl; try reflexivity.
  - apply Hx.
  - rewrite IHe1, IHe2. reflexivity.
  - rewrite IHe1, IHe2. reflexivity.
Qed.

(** Evaluating a substituted expression is evaluating the expression in
    the state where the substituted species take the values of their
    expressions. *)
Lemma eval_subst (sigma : list (string * pexpr)) (x y0 p : string -> Q) (e : pexpr) :
  eval x y0 p (subst sigma e) =
  eval (fun s => match assoc s sigma with
                 | Some e' => eval x y0 p e'
                 | None => x s
                 end) y0 p e.
Proof.
  induction e; simpl; try reflexivity.
  - destruct (assoc s sigma); reflexivity.
  - rewrite IHe1, IHe2. reflexivity.
  - rewrite IHe1, IHe2. reflexivity.
Qed.

Lemma qdot_map {A : Type} (f : A -> Z) (g : A -> Q) (l : list A) :
  qdot (map f l) (map g l) = fold_right (fun a acc => inject_Z (f a) * g a + acc) 0 l.
Proof. induction l as [|a l IH]; simpl; [reflexivity | now rewrite IH]. Qed.

Lemma sum_inject_Z {A : Type} (f g : A -> Z) (l : list A) :
  fold_right (fun a acc => inject_Z (f a) * inject_Z (g a) + acc) 0 l ==
  inject_Z (fold_right (fun a acc => (f a * g a + acc)%Z) 0%Z l).
Proof.
  induction l as [|a l IH]; simpl; [reflexivity|].
  rewrite IH, inject_Z_plus, inject_Z_mult. reflexivity.
Qed.

Lemma sum_zero {A : Type} (f : A -> Q) (l : list A) :
  fold_right (fun a acc => f a * 0 + acc) 0 l == 0.
Proof. induction l as [|a l IH]; simpl; [reflexivity|]. rewrite IH. ring. Qed.

Lemma sum_split {A : Type} (f g h : A -> Q) (l : list A) :
  fold_right (fun a acc => f a * (g a + h a) + acc) 0 l ==
  fold_right (fun a acc => f a * g a + acc) 0 l
  + fold_right (fun a acc => f a * h a + acc) 0 l.
Proof. induction l as [|a l IH]; simpl; [ring|]. rewrite IH. ring. Qed.

Lemma sum_scale {A : Type} (f g : A -> Q) (c : Q) (l : list A) :
  fold_right (fun a acc => f a * (g a * c) + acc) 0 l ==
  c * fold_right (fun a acc => f a * g a + acc) 0 l.
Proof. induction l as [|a l IH]; simpl; [ring|]. rewrite IH. ring. Qed.

Lemma sum_ext_in {A : Type} (F G : A -> Q) (l : list A) :
  (forall a, In a l -> F a == G a) ->
  fold_right (fun a acc => F a + acc) 0 l == fold_right (fun a acc => G a + acc) 0 l.
Proof.
  intros H. induction l as [|a l IH]; simpl; [reflexivity|].
  apply Qplus_comp; [apply H; left; reflexivity|].
  apply IH. intros b Hb. apply H. right. exact Hb.
Qed.

Lemma sum_ext {A : Type} (F G : A -> Q) (l : list A) :
  (forall a, F a == G a) ->
  fold_right (fun a acc => F a + acc) 0 l == fold_right (fun a acc => G a + acc) 0 l.
Proof. intros H. apply sum_ext_in. auto. Qed.

(** Exchanging the sum over species and the sum over reactions. *)
Lemma sum_swap (subs : list Substance) (rs : list Reaction)
    (c : Substance -> Q) (d : Reaction -> Substance -> Q) (rho : Reaction -> Q) :
  fold_right (fun sb acc =>
                c sb * fold_right (fun r acc' => d r sb * rho r + acc') 0 rs + acc) 0 subs ==
  fold_right (fun r acc =>
                rho r * fold_right (fun sb acc' => c sb * d r sb + acc') 0 subs + acc) 0 rs.
Proof.
  induction rs as [|r rs IH]; simpl.
  - apply sum_zero.
  - rewrite (sum_split c (fun sb => d r sb * rho r)
               (fun sb => fold_right (fun r0 acc' => d r0 sb * rho r0 + acc') 0 rs)).
    rewrite sum_scale, IH. reflexivity.
Qed.

(** The assembled right-hand side of a species, evaluated. *)
Lemma eval_rhs_entry (rs : list Reaction) (sb : Substance) (x y0 p : string -> Q) :
  eval x y0 p
    (fold_right (fun r acc =>
                   PAdd (PMul (PCst (inject_Z (coef (all_products r) (s_name sb)
                                               - coef (all_reactants r) (s_name sb))))
                              (rate_expr r)) acc) (PCst 0) rs) =
  fold_right (fun r acc =>
                inject_Z (coef (all_products r) (s_name sb)
                          - coef (all_reactants r) (s_name sb))
                * eval x y0 p (rate_expr r) + acc) 0 rs.
Proof. induction rs as [|r rs IH]; simpl; [reflexivity | now rewrite IH]. Qed.

Lemma in_combine_map {A B : Type} (g : A -> B) (l : list A) (a : A) (b : B) :
  In (a, b) (combine l (map g l)) -> b = g a.
Proof.
  induction l as [|a0 l IH]; simpl; [contradiction|].
  intros [E|H]; [injection E as <- <-; reflexivity | auto].
Qed.

Ltac reduce_rsys HS :=
  vm_compute in HS; injection HS as <-.

(** X7: the rate equations conserve every composition total: for a
    network accepted by the constructor, every state [x], initial values
    [y0] and rate parameters [p], the weighted sum [sum_s v_s d[s]/dt] is
    [0] for each invariant vector [v] of [composition_balance_vectors]. *)
Theorem rhs_conserves_composition (rs : list Reaction) (subs : list Substance)
    (net : ReactionSystem) (x y0 p : string -> Q) :
  mk_ReactionSystem rs subs = Some net ->
  forall v, In v (fst (composition_balance_vectors net)) ->
  qdot v (map (fun se => eval x y0 p (snd se)) (rhs net)) == 0.
Proof.
  intros Hmk v Hv.
  pose proof (balance_vectors_annihilate rs subs net Hmk v) as Hann.
  destruct (mk_ReactionSystem_inv rs subs net Hmk) as (-> & _ & _ & _).
  unfold composition_balance_vectors in Hv. simpl in Hv.
  apply in_map_iff in Hv as [k [<- Hck]].
  unfold rhs. simpl. rewrite map_map. simpl. rewrite qdot_map.
  etransitivity.
  { apply sum_ext. intros sb. rewrite eval_rhs_entry. reflexivity. }
  rewrite (sum_swap subs rs (fun sb => inject_Z (Z.of_nat (get0 k (s_composition sb))))
             (fun r sb => inject_Z (coef (all_products r) (s_name sb)
                                    - coef (all_reactants r) (s_name sb)))
             (fun r => eval x y0 p (rate_expr r))).
  transitivity (fold_right (fun r acc => eval x y0 p (rate_expr r) * 0 + acc) 0 rs);
    [|apply sum_zero].
  apply sum_ext_in. intros r Hr.
  rewrite (sum_inject_Z (fun sb => Z.of_nat (get0 k (s_composition sb)))
             (fun sb => coef (all_products r) (s_name sb)
                        - coef (all_reactants r) (s_name sb))%Z).
  rewrite <- dot_map. fold (net_stoich subs r).
  rewrite (Hann r (in_map _ _ _ Hck) Hr). reflexivity.
Qed.

Lemma rhs_conserves_composition_witness :
  mk_ReactionSystem [r_dis; r_as; r_u; r_f; r_agg] substances4 = Some rsys /\
  forall v, In v (fst (composition_balance_vectors rsys)) ->
  qdot v (map (fun se => eval (fun _ => 1) (fun _ => 1) (fun _ => 1) (snd se)) (rhs rsys))
  == 0.
Proof.
  assert (H : mk_ReactionSystem [r_dis; r_as; r_u; r_f; r_agg] substances4 = Some rsys)
    by (vm_compute; reflexivity).
  split; [exact H|].
  exact (rhs_conserves_composition _ _ _ (fun _ => 1) (fun _ => 1) (fun _ => 1) H).
Defined.

(** X9: the ligand concentration is at rest exactly when the binding
    equilibrium [[N][L] = K_dis [NL]] holds (for a non-zero association
    rate constant). *)
Theorem ligand_at_rest_iff_binding_equilibrium (x y0 p : string -> Q) :
  ~ p "k_as" == 0 ->
  (d_dt x y0 p "L" == 0 <-> x "N" * x "L" == p "K_dis" * x "NL").
Proof.
  intros Hk.
  assert (E : d_dt x y0 p "L" == p "k_as" * (p "K_dis" * x "NL" - x "N" * x "L")).
  { unfold d_dt. cbn -[Qplus Qmult Qopp Qminus inject_Z]. cbn [inject_Z]. ring. }
  rewrite E. split; intros H.
  - apply Qmult_integral in H as [H|H]; [contradiction|]. lra.
  - assert (H' : p "K_dis" * x "NL" - x "N" * x "L" == 0) by lra.
    rewrite H'. ring.
Qed.

Lemma ligand_at_rest_iff_binding_equilibrium_witness :
  ~ (fun _ : string => 1) "k_as" == 0 /\
  (d_dt (fun _ => 1) (fun _ => 1) (fun _ => 1) "L" == 0 <->
   (fun _ : string => 1) "N" * (fun _ : string => 1) "L"
   == (fun _ : string => 1) "K_dis" * (fun _ : string => 1) "NL").
Proof.
  assert (Hk : ~ (fun _ : string => 1) "k_as" == 0) by discriminate.
  split; [exact Hk|].
  exact (ligand_at_rest_iff_binding_equilibrium (fun _ => 1) (fun _ => 1) (fun _ => 1) Hk).
Defined.

Lemma reconstruct_LN (S : PartiallySolved) (x y0 p : string -> Q) :
  reduce rsys ["L"; "N"] = Some S ->
  x "N" + x "U" + x "A" + x "NL" == y0 "N" + y0 "U" + y0 "A" + y0 "NL" ->
  x "L" + x "NL" == y0 "L" + y0 "NL" ->
  forall s, concentration S x y0 p s == x s.
Proof.
  intros HS Hp Hl s. reduce_rsys HS. unfold concentration. simpl.
  destruct (String.eqb_spec s "L") as [->|_]; [cbn; lra|].
  destruct (String.eqb_spec s "N") as [->|_]; [cbn; lra|].
  reflexivity.
Qed.

Lemma reconstruct_LA (S : PartiallySolved) (x y0 p : string -> Q) :
  reduce rsys ["L"; "A"] = Some S ->
  x "N" + x "U" + x "A" + x "NL" == y0 "N" + y0 "U" + y0 "A" + y0 "NL" ->
  x "L" + x "NL" == y0 "L" + y0 "NL" ->
  forall s, concentration S x y0 p s == x s.
Proof.
  intros HS Hp Hl s. reduce_rsys HS. unfold concentration. simpl.
  destruct (String.eqb_spec s "L") as [->|_]; [cbn; lra|].
  destruct (String.eqb_spec s "A") as [->|_]; [cbn; lra|].
  reflexivity.
Qed.

(** X10: round trip of the two reductions of the notebook: for a state
    with the same total protein and total ligand as the initial
    concentrations, reconstructing the eliminated species from the free
    values and the initial concentrations gives back the state, for
    [{L, N}] and for [{L, A}] eliminated. *)
Theorem reduction_round_trip (x y0 p : string -> Q) :
  x "N" + x "U" + x "A" + x "NL" == y0 "N" + y0 "U" + y0 "A" + y0 "NL" ->
  x "L" + x "NL" == y0 "L" + y0 "NL" ->
  (exists S, reduce rsys ["L"; "N"] = Some S /\
     forall s, concentration S x y0 p s == x s) /\
  (exists S, reduce rsys ["L"; "A"] = Some S /\
     forall s, concentration S x y0 p s == x s).
Proof.
  intros Hp Hl. split.
  - destruct (reduce rsys ["L"; "N"]) as [S|] eqn:HS; [|vm_compute in HS; discriminate].
    exists S. split; [reflexivity|]. exact (reconstruct_LN S x y0 p HS Hp Hl).
  - destruct (reduce rsys ["L"; "A"]) as [S|] eqn:HS; [|vm_compute in HS; discriminate].
    exists S. split; [reflexivity|]. exact (reconstruct_LA S x y0 p HS Hp Hl).
Qed.

(** A state other than the initial one, with the same totals: [[N] = 2],
    [[U] = 0], everything else [1]. *)
Lemma reduction_round_trip_witness :
  let x := fun s : string => if String.eqb s "N" then 2
                             else if String.eqb s "U" then 0 else 1 in
  let y0 := fun _ : string => 1 in
  (x "N" + x "U" + x "A" + x "NL" == y0 "N" + y0 "U" + y0 "A" + y0 "NL") /\
  (x "L" + x "NL" == y0 "L" + y0 "NL") /\
  (exists S, reduce rsys ["L"; "N"] = Some S /\
     forall s, concentration S x y0 (fun _ => 1) s == x s) /\
  (exists S, reduce rsys ["L"; "A"] = Some S /\
     forall s, concentration S x y0 (fun _ => 1) s == x s).
Proof.
  intros x y0.
  assert (Hp : x "N" + x "U" + x "A" + x "NL" == y0 "N" + y0 "U" + y0 "A" + y0 "NL")
    by reflexivity.
  assert (Hl : x "L" + x "NL" == y0 "L" + y0 "NL") by reflexivity.
  split; [exact Hp|]. split; [exact Hl|].
  exact (reduction_round_trip x y0 (fun _ => 1) Hp Hl).
Defined.

(** X11: for every network and every choice of eliminated species, each
    right-hand side of the partially solved system, at free values [x],
    equals the full right-hand side of that species evaluated at the
    reconstructed state (free values, and analytic expressions for the
    eliminated species). *)
Theorem reduced_rhs_is_full_rhs (rs : ReactionSystem) (elim : list string)
    (S : PartiallySolved) (x y0 p : string -> Q) :
  reduce rs elim = Some S ->
  forall f e, In (f, e) (combine (free_names S) (exprs S)) ->
  eval x y0 p e =
  match assoc f (rhs rs) with
  | Some e' => eval (concentration S x y0 p) y0 p e'
  | None => 0
  end.
Proof.
  unfold reduce. destruct (linear_dependencies rs elim) as [a|]; [|discriminate].
  intros HS. injection HS as <-. intros f e Hin.
  unfold partially_solved in Hin. simpl in Hin.
  apply in_combine_map in Hin. subst e.
  destruct (assoc f (rhs rs)) as [e'|]; [|reflexivity].
  rewrite eval_subst. reflexivity.
Qed.

Lemma reduced_rhs_is_full_rhs_witness :
  exists S, reduce rsys ["L"; "N"] = Some S /\
  In ("U", nth 0 (exprs S) (PCst 0)) (combine (free_names S) (exprs S)) /\
  eval (fun _ => 1) (fun _ => 1) (fun _ => 1) (nth 0 (exprs S) (PCst 0)) =
  match assoc "U" (rhs rsys) with
  | Some e' => eval (concentration S (fun _ => 1) (fun _ => 1) (fun _ => 1))
                    (fun _ => 1) (fun _ => 1) e'
  | None => 0
  end.
Proof.
  destruct (reduce rsys ["L"; "N"]) as [S|] eqn:HS; [|vm_compute in HS; discriminate].
  assert (Hin : In ("U", nth 0 (exprs S) (PCst 0)) (combine (free_names S) (exprs S)))
    by (vm_compute in HS; injection HS as <-; left; reflexivity).
  exists S. split; [reflexivity|]. split; [exact Hin|].
  exact (reduced_rhs_is_full_rhs rsys ["L"; "N"] S _ _ _ HS _ _ Hin).
Defined.

End NetworkExtras.

(* ================================================================== *)
(** ** Properties of the name helpers *)

Module TextExtras.
Import PyText.

Lemma append_nil (s : string) : s ++ "" = s.
Proof. induction s as [|c s IH]; simpl; [reflexivity | now rewrite IH]. Qed.

Lemma length_app (u v : string) :
  String.length (u ++ v) = (String.length u + String.length v)%nat.
Proof. induction u as [|c u IH]; simpl; [reflexivity | now rewrite IH]. Qed.

Lemma strip_prefix_app (P r : string) : strip_prefix P (P ++ r) = Some r.
Proof.
  induction P as [|a P IH]; simpl; [reflexivity|]. now rewrite Ascii.eqb_refl.
Qed.

Lemma strip_prefix_inv (P s r : string) : strip_prefix P s = Some r -> s = P ++ r.
Proof.
  revert s. induction P as [|a P IH]; intros s; simpl.
  - congruence.
  - destruct s as [|b s]; [discriminate|].
    destruct (Ascii.eqb_spec a b) as [<-|_]; [|discriminate].
    intros H. now rewrite (IH s H).
Qed.

Lemma replace_skip (old new u v : string) :
  replace_aux old new (String.length u) (u ++ v) = replace_aux old new 0 v.
Proof. induction u as [|c u IH]; simpl; [reflexivity | exact IH]. Qed.

Lemma sub_skip (P : string) (ps : list tpiece) (u v : string) :
  sub_aux P ps (String.length u) (u ++ v) = sub_aux P ps 0 v.
Proof. induction u as [|c u IH]; simpl; [reflexivity | exact IH]. Qed.

Lemma replace_empty_self (s : string) : replace_empty "" s = s.
Proof. induction s as [|c s IH]; simpl; [reflexivity | now rewrite IH]. Qed.

Lemma replace_self (old s : string) : py_replace old old s = s.
Proof.
  unfold py_replace. destruct (String.eqb_spec old "") as [->|Hne].
  { apply replace_empty_self. }
  remember (String.length s) as n eqn:En. assert (Hn : (String.length s <= n)%nat) by lia.
  clear En. revert s Hn. induction n as [|n IH]; intros s Hn.
  - destruct s; [reflexivity | simpl in Hn; lia].
  - destruct s as [|c s']; [reflexivity|]. simpl.
    destruct (strip_prefix old (String c s')) as [r|] eqn:E.
    + apply strip_prefix_inv in E.
      destruct old as [|a old']; [contradiction|].
      simpl in E. injection E as <- Es'. subst s'. simpl.
      rewrite replace_skip, IH; [reflexivity|].
      simpl in Hn. rewrite length_app in Hn. lia.
    + rewrite IH; [reflexivity | simpl in Hn; lia].
Qed.

(** Replacing a character by another, character by character. *)
Lemma str_forall_app (f : ascii -> bool) (u v : string) :
  str_forall f (u ++ v) = str_forall f u && str_forall f v.
Proof.
  induction u as [|c u IH]; simpl; [reflexivity|]. rewrite IH. apply andb_assoc.
Qed.

Lemma replace_forall (f : ascii -> bool) (old new : string) (k : nat) (s : string) :
  str_forall f s = true -> str_forall f new = true ->
  str_forall f (replace_aux old new k s) = true.
Proof.
  revert k. induction s as [|c s IH]; intros k Hs Hn; simpl; [reflexivity|].
  simpl in Hs. apply andb_prop in Hs as [Hc Hs].
  destruct k as [|k]; [|now apply IH].
  destruct (strip_prefix old (String c s)).
  - rewrite str_forall_app, Hn. now apply IH.
  - simpl. rewrite Hc. now apply IH.
Qed.

Lemma replace_char (a b : ascii) (s : string) :
  String.length (replace_aux (String a "") (String b "") 0 s) = String.length s /\
  forall i c, String.get i s = Some c ->
  String.get i (replace_aux (String a "") (String b "") 0 s) =
  Some (if Ascii.eqb a c then b else c).
Proof.
  induction s as [|c s [IHl IHg]]; simpl.
  - split; [reflexivity | discriminate].
  - destruct (Ascii.eqb a c) eqn:E; simpl; (split; [now rewrite IHl|]);
      intros [|i] d; simpl; intros H; try (injection H as <-; now rewrite E);
      now apply IHg.
Qed.

(** [strip_prefix P] fails on a string [w ++ b] when [P] contains ['_'],
    [w] does not, and [P] does not contain the first character of [b]. *)
Lemma no_strip (P w b : string) :
  str_forall no_underscore P = false ->
  str_forall no_underscore w = true ->
  match b with
  | EmptyString => True
  | String h _ => str_forall (fun d => negb (Ascii.eqb d h)) P = true
  end ->
  strip_prefix P (w ++ b) = None.
Proof.
  revert P. induction w as [|c w IH]; intros P HP Hw Hb.
  - destruct P as [|a P]; [discriminate|]. destruct b as [|h b]; [reflexivity|].
    simpl in Hb |- *. apply andb_prop in Hb as [Ha _].
    destruct (Ascii.eqb_spec a h) as [<-|_]; [|reflexivity].
    discriminate Ha.
  - destruct P as [|a P]; [discriminate|]. simpl in Hw |- *.
    apply andb_prop in Hw as [Hc Hw].
    destruct (Ascii.eqb_spec a c) as [<-|_]; [|reflexivity].
    apply IH; [| exact Hw |].
    + simpl in HP. now rewrite Hc in HP.
    + destruct b as [|h b]; [exact I|]. simpl in Hb. now apply andb_prop in Hb as [_ Hb].
Qed.

Lemma sub_aux_token (P : string) (ps : list tpiece) (w b : string) :
  str_forall no_underscore P = false ->
  str_forall no_underscore w = true ->
  match b with
  | EmptyString => True
  | String h _ => str_forall (fun d => negb (Ascii.eqb d h)) P = true
  end ->
  sub_aux P ps 0 (w ++ b) = w ++ sub_aux P ps 0 b.
Proof.
  intros HP. induction w as [|c w IH]; intros Hw Hb; [reflexivity|].
  pose proof (no_strip P (String c w) b HP Hw Hb) as E. simpl in E.
  simpl. unfold match_word. rewrite E.
  simpl in Hw. apply andb_prop in Hw as [_ Hw]. now rewrite IH.
Qed.

Lemma word_run_all (w : string) : str_forall is_word_char w = true -> word_run w = w.
Proof.
  induction w as [|c w IH]; simpl; [reflexivity|].
  intros H. apply andb_prop in H as [-> H]. now rewrite IH.
Qed.

Lemma sub_aux_match (P : string) (ps : list tpiece) (w : string) :
  P <> "" -> w <> "" -> str_forall is_word_char w = true ->
  sub_aux P ps 0 (P ++ w) = expand ps w.
Proof.
  intros HP Hw Hword. destruct P as [|a P']; [contradiction|].
  change (String a P' ++ w) with (String a (P' ++ w)). simpl sub_aux.
  unfold match_word. change (String a (P' ++ w)) with (String a P' ++ w).
  rewrite strip_prefix_app, word_run_all by exact Hword.
  destruct w as [|c w']; [contradiction|].
  pose proof (sub_skip (String a P') ps (P' ++ String c w') "") as Hs.
  rewrite append_nil, length_app in Hs. rewrite Hs. apply append_nil.
Qed.

Lemma clash_strip (P a s : string) : clash P a = true -> strip_prefix P (a ++ s) = None.
Proof.
  revert a. induction P as [|p P IH]; intros a H; [discriminate|].
  destruct a as [|c a]; [discriminate|]. simpl in H |- *.
  destruct (Ascii.eqb p c); [now apply IH | reflexivity].
Qed.

Lemma sub_aux_app_nomatch (P : string) (ps : list tpiece) (a s : string) :
  nomatch_in P a = true -> sub_aux P ps 0 (a ++ s) = a ++ sub_aux P ps 0 s.
Proof.
  induction a as [|c a IH]; intros H; [reflexivity|].
  simpl in H. apply andb_prop in H as [Hc H].
  pose proof (clash_strip P (String c a) s Hc) as E. simpl in E.
  simpl. unfold match_word. rewrite E. now rewrite IH.
Qed.

Lemma sub_aux_nomatch_full (P : string) (ps : list tpiece) (a : string) :
  nomatch_in P a = true -> sub_aux P ps 0 a = a.
Proof.
  intros H. rewrite <- (append_nil a) at 1. rewrite sub_aux_app_nomatch by exact H.
  apply append_nil.
Qed.

Lemma sub_aux_token_nil (P : string) (ps : list tpiece) (w : string) :
  str_forall no_underscore P = false -> str_forall no_underscore w = true ->
  sub_aux P ps 0 w = w.
Proof.
  intros HP Hw. rewrite <- (append_nil w) at 1.
  rewrite sub_aux_token by (assumption || exact I). apply append_nil.
Qed.

Lemma fold_none (subs : list (string * string)) :
  fold_left (fun acc '(pattern, repl) =>
               match acc with
               | Some s' => re_sub pattern repl s'
               | None => None
               end) subs None = None.
Proof. induction subs as [|[pat rep] subs IH]; simpl; [reflexivity | exact IH]. Qed.

Lemma pretty_cons (P t : string) (subs : list (string * string)) (s : string) :
  pretty_replace_with ((P, t) :: subs) s =
  match re_sub P t s with
  | Some s' => pretty_replace_with subs s'
  | None => None
  end.
Proof.
  unfold pretty_replace_with. simpl.
  destruct (re_sub P t s); [reflexivity | apply fold_none].
Qed.

Lemma re_sub_ok (P t s : string) (ps : list tpiece) :
  parse_template t = Some ps -> re_sub P t s = Some (sub_aux P ps 0 s).
Proof. unfold re_sub. intros ->. reflexivity. Qed.

(** Strings without ['_'] are left as they are by any substitution list
    whose patterns contain ['_'] and whose templates are valid. *)
Lemma pretty_replace_with_no_underscore (subs : list (string * string)) (s : string) :
  forallb (fun '(P, t) => negb (str_forall no_underscore P)
                          && match parse_template t with Some _ => true | None => false end)
          subs = true ->
  str_forall no_underscore s = true ->
  pretty_replace_with subs s = Some s.
Proof.
  induction subs as [|[P t] subs IH]; intros Hsubs Hs; [reflexivity|].
  simpl in Hsubs. apply andb_prop in Hsubs as [Hpt Hsubs].
  apply andb_prop in Hpt as [HP Ht].
  rewrite pretty_cons.
  destruct (parse_template t) as [ps|] eqn:E; [|discriminate].
  rewrite (re_sub_ok P t s ps E).
  rewrite <- (append_nil s) at 1.
  rewrite sub_aux_token; [| now apply negb_true_iff | exact Hs | exact I].
  simpl. rewrite append_nil. now apply IH.
Qed.

Ltac pr_step := rewrite pretty_cons; erewrite re_sub_ok by reflexivity; cbv iota beta.

Ltac pr_nomatch w Hu :=
  rewrite sub_aux_app_nomatch by reflexivity;
  first [ rewrite (sub_aux_token_nil _ _ w) by first [exact Hu | reflexivity]
        | rewrite (sub_aux_token _ _ w) by first [exact Hu | reflexivity | exact I];
          rewrite sub_aux_nomatch_full by reflexivity ].

Ltac pr_match P w a b :=
  rewrite (sub_aux_match P _ w) by (assumption || discriminate);
  match goal with |- context [expand ?ps w] =>
    replace (expand ps w) with (a ++ w ++ b) by reflexivity end.

Ltac pr_key P w a b Hu :=
  unfold pretty_replace, pretty_subs;
  repeat (pr_step; first [pr_match P w a b | pr_nomatch w Hu]);
  reflexivity.

(** X12: replacing a string by itself changes nothing, for every [old]
    (the empty string included): the second [.replace('-','-')] of
    [rnames] never changes a name. *)
Theorem py_replace_same_is_identity (old s : string) : py_replace old old s = s.
Proof. apply replace_self. Qed.

(** X13: the LaTeX reaction names [rnames[rxn.name]] have the length of
    the reaction name, with every space replaced by [~] and every other
    character kept. *)
Theorem rname_spaces_to_tildes (name : string) :
  String.length (rname name) = String.length name /\
  forall i c, String.get i name = Some c ->
  String.get i (rname name) = Some (if Ascii.eqb c " "%char then "~"%char else c).
Proof.
  unfold rname. rewrite replace_self. unfold py_replace. simpl String.eqb. cbv iota.
  destruct (replace_char " "%char "~"%char name) as [Hl Hg].
  split; [exact Hl|]. intros i c H. rewrite (Hg i c H), Ascii.eqb_sym. reflexivity.
Qed.

Lemma rname_spaces_to_tildes_witness :
  String.get 7%nat "protein folding" = Some " "%char /\
  String.get 7%nat (rname "protein folding") = Some "~"%char.
Proof.
  split; [reflexivity|].
  exact (proj2 (rname_spaces_to_tildes "protein folding") 7%nat " "%char eq_refl).
Defined.

(** X14: [pretty_replace] renders every parameter key [<prefix>_<token>],
    for a non-empty token of word characters without ['_'] (as [dis],
    [u], [agg], [as], [f]), as the LaTeX of its prefix with the token as
    subscript; no other pattern applies to the result. *)
Theorem pretty_replace_parameter_keys (w : string) :
  w <> "" -> str_forall is_word_char w = true -> str_forall no_underscore w = true ->
  pretty_replace ("Ha_" ++ w) = Some ("\Delta_{" ++ w ++ "}H^{\neq}") /\
  pretty_replace ("Sa_" ++ w) = Some ("\Delta_{" ++ w ++ "}S^{\neq}") /\
  pretty_replace ("He_" ++ w) = Some ("\Delta_{" ++ w ++ "}H^\circ") /\
  pretty_replace ("Se_" ++ w) = Some ("\Delta_{" ++ w ++ "}S^\circ") /\
  pretty_replace ("Cp_" ++ w) = Some ("\Delta_{" ++ w ++ "}\,C_p") /\
  pretty_replace ("Tref_" ++ w) = Some ("T^{\circ}_{" ++ w ++ "}").
Proof.
  intros Hne Hw Hu.
  split; [pr_key "Ha_" w "\Delta_{" "}H^{\neq}" Hu|].
  split; [pr_key "Sa_" w "\Delta_{" "}S^{\neq}" Hu|].
  split; [pr_key "He_" w "\Delta_{" "}H^\circ" Hu|].
  split; [pr_key "Se_" w "\Delta_{" "}S^\circ" Hu|].
  split; [pr_key "Cp_" w "\Delta_{" "}\,C_p" Hu|].
  pr_key "Tref_" w "T^{\circ}_{" "}" Hu.
Qed.

Lemma pretty_replace_parameter_keys_witness :
  ("agg" <> "" /\ str_forall is_word_char "agg" = true
   /\ str_forall no_underscore "agg" = true) /\
  pretty_replace ("Ha_" ++ "agg") = Some ("\Delta_{" ++ "agg" ++ "}H^{\neq}").
Proof.
  assert (H1 : "agg" <> "") by discriminate.
  assert (H2 : str_forall is_word_char "agg" = true) by reflexivity.
  assert (H3 : str_forall no_underscore "agg" = true) by reflexivity.
  split; [split; [exact H1 | split; [exact H2 | exact H3]]|].
  exact (proj1 (pretty_replace_parameter_keys "agg" H1 H2 H3)).
Defined.

(** X15: every pattern of [pretty_replace] contains ['_'], so a string
    without ['_'] (as [R], [h], [temperature]) comes back unchanged. *)
Theorem pretty_replace_no_underscore (s : string) :
  str_forall no_underscore s = true -> pretty_replace s = Some s.
Proof.
  intros Hs. apply pretty_replace_with_no_underscore; [reflexivity | exact Hs].
Qed.

Lemma pretty_replace_no_underscore_witness :
  str_forall no_underscore "temperature" = true /\
  pretty_replace "temperature" = Some "temperature".
Proof.
  assert (H : str_forall no_underscore "temperature" = true) by reflexivity.
  split; [exact H | exact (pretty_replace_no_underscore _ H)].
Defined.

(** X16: [mk_Symbol] names the symbol of a key that is not a substance and
    has no ['_'] by the key with [temperature] replaced by [T] (so
    [temperature] gives [T], and [R], [h] are kept). *)
Theorem mk_Symbol_plain_keys (key : string) :
  Network.assoc key substance_latex = None -> str_forall no_underscore key = true ->
  mk_Symbol key = Some (py_replace "temperature" "T" key).
Proof.
  intros Hsub Hkey. unfold mk_Symbol. rewrite Hsub.
  apply pretty_replace_with_no_underscore; [reflexivity|].
  unfold py_replace. simpl String.eqb. cbv iota.
  apply replace_forall; [exact Hkey | reflexivity].
Qed.

Lemma mk_Symbol_plain_keys_witness :
  (Network.assoc "temperature" substance_latex = None /\
   str_forall no_underscore "temperature" = true) /\
  mk_Symbol "temperature" = Some (py_replace "temperature" "T" "temperature") /\
  py_replace "temperature" "T" "temperature" = "T".
Proof.
  assert (H1 : Network.assoc "temperature" substance_latex = None) by reflexivity.
  assert (H2 : str_forall no_underscore "temperature" = true) by reflexivity.
  split; [split; assumption|].
  split; [exact (mk_Symbol_plain_keys _ H1 H2) | reflexivity].
Defined.

End TextExtras.

(* ================================================================== *)
(** ** Facts about the parameter dicts and the integration call *)

Module DictExtras.
Import Network PyDict.
Local Open Scope R_scope.

Lemma assoc_dict_set {A : Type} (k k' : string) (v : A) (d : list (string * A)) :
  assoc k (dict_set k' v d) = if String.eqb k k' then Some v else assoc k d.
Proof.
  induction d as [|[k0 v0] t IH]; simpl.
  - reflexivity.
  - destruct (String.eqb k' k0) eqn:E1.
    + apply String.eqb_eq in E1. subst k0. simpl.
      destruct (String.eqb k k'); reflexivity.
    + simpl. rewrite IH.
      destruct (String.eqb k k0) eqn:E2, (String.eqb k k') eqn:E3; try reflexivity.
      apply String.eqb_eq in E2. apply String.eqb_eq in E3. subst.
      rewrite String.eqb_refl in E1. discriminate.
Qed.

Lemma assoc_app {A : Type} (k : string) (l1 l2 : list (string * A)) :
  assoc k (l1 ++ l2) = match assoc k l1 with Some v => Some v | None => assoc k l2 end.
Proof.
  induction l1 as [|[k0 v0] t IH]; simpl; [reflexivity|].
  destruct (String.eqb k k0); [reflexivity | exact IH].
Qed.

Lemma assoc_dict_update (k : string) (d e : dict) :
  assoc k (dict_update d e) =
  match assoc k (rev e) with Some v => Some v | None => assoc k d end.
Proof.
  unfold dict_update. revert d.
  induction e as [|[k0 v0] t IH]; intros d; simpl; [reflexivity|].
  rewrite IH, assoc_app, assoc_dict_set. simpl.
  destruct (assoc k (rev t)); [reflexivity|].
  destruct (String.eqb k k0); reflexivity.
Qed.

(** X17: reading [params_c0[k]] (a [defaultdict(float)] copy of
    [default_c0] updated with [params]) gives the last value [params]
    has for [k], else the value of [default_c0], else [0.0]; the read
    inserts [k] only when it was in neither dict. *)
Theorem params_c0_getitem (default_c0 params : dict) (k : string) :
  defaultdict_getitem k (params_c0 default_c0 params) =
  match assoc k (rev params) with
  | Some v => (v, params_c0 default_c0 params)
  | None =>
      match assoc k default_c0 with
      | Some v => (v, params_c0 default_c0 params)
      | None => (0, dict_set k 0 (params_c0 default_c0 params))
      end
  end.
Proof.
  unfold defaultdict_getitem, params_c0. rewrite assoc_dict_update.
  destruct (assoc k (rev params)); [reflexivity|].
  destruct (assoc k default_c0); reflexivity.
Qed.

(** X18: [integrate_and_plot] calls [system.integrate] over [[t0, 3600*24]]
    with [integrator='cvode'], [nsteps], [first_step] (by default
    [h0max*1e-11]), and the caller's keyword arguments, where [atol] and
    [rtol] default to [1e-11] and every other one is passed unchanged; the
    call raises [TypeError] exactly when the caller's keyword arguments
    repeat [integrator], [nsteps] or [first_step]. *)
Theorem integrate_and_plot_kwargs (default_c0 params : dict) (h0max : F64.float)
    (c0 : option dict) (first_step t0 nsteps : pyval) (kwargs : kwdict) :
  (integrate_and_plot_call default_c0 params h0max c0 first_step t0 nsteps kwargs = None <->
   exists k, In k ["integrator"; "nsteps"; "first_step"]%string /\ assoc k kwargs <> None) /\
  (forall call,
   integrate_and_plot_call default_c0 params h0max c0 first_step t0 nsteps kwargs = Some call ->
   ic_tspan call = (t0, PInt 86400) /\
   ic_c0 call = match c0 with None => default_c0 | Some c => c end /\
   ic_params call = params /\
   assoc "integrator" (ic_kwargs call) = Some (PStr "cvode") /\
   assoc "nsteps" (ic_kwargs call) = Some nsteps /\
   assoc "first_step" (ic_kwargs call) =
     Some (match first_step with
           | PNone => PFloat (F64.fmul h0max (F64.lit (1 # 10 ^ 11)))
           | f => f
           end) /\
   assoc "atol" (ic_kwargs call) =
     Some (match assoc "atol" kwargs with Some v => v | None => PFloat (F64.lit (1 # 10 ^ 11)) end) /\
   assoc "rtol" (ic_kwargs call) =
     Some (match assoc "rtol" kwargs with Some v => v | None => PFloat (F64.lit (1 # 10 ^ 11)) end) /\
   (forall k, k <> "atol"%string -> k <> "rtol"%string ->
      ~ In k ["integrator"; "nsteps"; "first_step"]%string ->
      assoc k (ic_kwargs call) = assoc k kwargs)).
Proof.
  assert (Hclash : forall vr va,
    kw_clash (dict_set "rtol" vr (dict_set "atol" va kwargs)) = kw_clash kwargs).
  { intros vr va. unfold kw_clash, explicit_keywords. cbn [existsb].
    rewrite !assoc_dict_set. reflexivity. }
  assert (Hiff : kw_clash kwargs = true <->
    exists k, In k ["integrator"; "nsteps"; "first_step"]%string /\ assoc k kwargs <> None).
  { unfold kw_clash, explicit_keywords. rewrite existsb_exists.
    split; intros (k & Hk & Hd); exists k; split; try exact Hk;
      destruct (assoc k kwargs); congruence. }
  unfold integrate_and_plot_call. rewrite Hclash.
  split.
  - destruct (kw_clash kwargs) eqn:E; split; intros H.
    + apply Hiff. reflexivity.
    + reflexivity.
    + discriminate H.
    + apply Hiff in H. congruence.
  - intros call Hcall. destruct (kw_clash kwargs); [discriminate Hcall|].
    injection Hcall as <-. cbn [ic_tspan ic_c0 ic_params ic_kwargs].
    split; [reflexivity|]. split; [reflexivity|]. split; [reflexivity|].
    split; [reflexivity|]. split; [reflexivity|]. split; [reflexivity|].
    cbn [assoc]. unfold dict_get. rewrite !assoc_dict_set.
    split; [reflexivity|]. split; [reflexivity|].
    intros k H1 H2 H3.
    destruct (String.eqb_spec k "integrator"); [subst; exfalso; apply H3; left; reflexivity|].
    destruct (String.eqb_spec k "nsteps"); [subst; exfalso; apply H3; right; left; reflexivity|].
    destruct (String.eqb_spec k "first_step"); [subst; exfalso; apply H3; right; right; left; reflexivity|].
    rewrite !assoc_dict_set.
    destruct (String.eqb_spec k "rtol"); [contradiction|].
    destruct (String.eqb_spec k "atol"); [contradiction|].
    reflexivity.
Qed.

End DictExtras.
